(** * shadowsocks.mdb.models: the [User] table and its operations

    A shallow embedding of [src/shadowsocks/mdb/models.py].  The SQLite
    table behind the peewee model is a finite map from the primary key
    [user_id] to the remaining columns; every method of the model becomes
    a function that takes the table and returns the new table together
    with what the method returns or raises.  The one piece of state
    outside the table, the set object that is the default of [ip_list],
    is passed to the methods that read it. *)

From stdpp Require Import gmap strings list fin_maps sorting.

Open Scope Z_scope.

(** ** Exceptions and results *)

(** The transport flags of [shadowsocks.protocol_flag]; the module is not
    part of the sources, the code only compares against [TRANSPORT_TCP]. *)
Inductive Transport := TRANSPORT_TCP | TRANSPORT_UDP.

#[global] Instance Transport_eq_dec : EqDecision Transport.
Proof. solve_decision. Defined.

(** Python exceptions that the module raises or lets through.
    [RuntimeError] carries the values its message interpolates. *)
Inductive exn :=
  | ValueError (args : list string)
  | IndexError
  | KeyError (key : string)
  | IntegrityError (msg : string)
  | OperationalError (msg : string)
  | ConnectionError (msg : string)
  | RuntimeError (port : Z) (ts_protocol : Transport).

#[global] Instance exn_eq_dec : EqDecision exn.
Proof. solve_decision. Defined.

Inductive Result (A : Type) :=
  | Ok (a : A)
  | Raise (e : exn).
Arguments Ok {A} a.
Arguments Raise {A} e.

Definition rbind {A B} (r : Result A) (k : A → Result B) : Result B :=
  match r with
  | Ok a => k a
  | Raise e => Raise e
  end.

Notation "'try!' x ← r ; k" := (rbind r (λ x, k))
  (at level 20, x binder, r at level 100, k at level 200, only parsing).

(** ** The table *)

(** The columns of [User] other than the primary key.  Integer columns
    are Python integers on the way in and out; the model keeps them in
    [Z] and does no arithmetic of its own on their width. *)
Record Row := mkRow {
  port : Z;
  method : string;
  password : string;
  enable : bool;
  speed_limit : Z;
  access_order : Z;
  need_sync : bool;
  ip_list : gset string;
  tcp_conn_num : Z;
  upload_traffic : Z;
  download_traffic : Z
}.

#[global] Instance Row_eq_dec : EqDecision Row.
Proof. solve_decision. Defined.

(** The table, keyed by [user_id] (an INTEGER PRIMARY KEY). *)
Abbreviation Table := (gmap Z Row).

(** A full model instance, as [query.get()] and [cls.create] build it. *)
Record UserObj := mkUserObj {
  user_id : Z;
  fields : Row
}.

(** The instance that [list_by_port] yields: only the selected columns. *)
Record Candidate := mkCandidate {
  c_user_id : Z;
  c_method : string;
  c_password : string;
  c_enable : bool;
  c_ip_list : gset string;
  c_access_order : Z
}.

#[global] Instance Candidate_eq_dec : EqDecision Candidate.
Proof. solve_decision. Defined.

(** The instance that [flush_metrics_to_remote] selects. *)
Record Metrics := mkMetrics {
  m_user_id : Z;
  m_ip_list : gset string;
  m_tcp_conn_num : Z;
  m_upload_traffic : Z;
  m_download_traffic : Z
}.

(** One element of the list sent to the remote end. *)
Record WireRecord := mkWire {
  w_user_id : Z;
  w_ip_list : list string;
  w_tcp_conn_num : Z;
  w_upload_traffic : Z;
  w_download_traffic : Z
}.

(** One element of [data["users"]]: a dict with the keys of the
    definitions payload, each of which may be absent. *)
Record UserData := mkUserData {
  d_user_id : option Z;
  d_port : option Z;
  d_method : option string;
  d_password : option string;
  d_enable : option bool;
  d_speed_limit : option Z
}.

(** Column defaults of the model. *)
Definition default_enable : bool := true.
Definition default_speed_limit : Z := 0.
Definition default_access_order : Z := 0.
Definition default_need_sync : bool := false.
Definition default_tcp_conn_num : Z := 0.
Definition default_upload_traffic : Z := 0.
Definition default_download_traffic : Z := 0.

(** *** Column assignments *)

Definition set_port (v : Z) (r : Row) : Row :=
  mkRow v (method r) (password r) (enable r) (speed_limit r) (access_order r)
        (need_sync r) (ip_list r) (tcp_conn_num r) (upload_traffic r)
        (download_traffic r).
Definition set_method (v : string) (r : Row) : Row :=
  mkRow (port r) v (password r) (enable r) (speed_limit r) (access_order r)
        (need_sync r) (ip_list r) (tcp_conn_num r) (upload_traffic r)
        (download_traffic r).
Definition set_password (v : string) (r : Row) : Row :=
  mkRow (port r) (method r) v (enable r) (speed_limit r) (access_order r)
        (need_sync r) (ip_list r) (tcp_conn_num r) (upload_traffic r)
        (download_traffic r).
Definition set_enable (v : bool) (r : Row) : Row :=
  mkRow (port r) (method r) (password r) v (speed_limit r) (access_order r)
        (need_sync r) (ip_list r) (tcp_conn_num r) (upload_traffic r)
        (download_traffic r).
Definition set_speed_limit (v : Z) (r : Row) : Row :=
  mkRow (port r) (method r) (password r) (enable r) v (access_order r)
        (need_sync r) (ip_list r) (tcp_conn_num r) (upload_traffic r)
        (download_traffic r).
Definition set_access_order (v : Z) (r : Row) : Row :=
  mkRow (port r) (method r) (password r) (enable r) (speed_limit r) v
        (need_sync r) (ip_list r) (tcp_conn_num r) (upload_traffic r)
        (download_traffic r).
Definition set_need_sync (v : bool) (r : Row) : Row :=
  mkRow (port r) (method r) (password r) (enable r) (speed_limit r)
        (access_order r) v (ip_list r) (tcp_conn_num r) (upload_traffic r)
        (download_traffic r).
Definition set_ip_list (v : gset string) (r : Row) : Row :=
  mkRow (port r) (method r) (password r) (enable r) (speed_limit r)
        (access_order r) (need_sync r) v (tcp_conn_num r) (upload_traffic r)
        (download_traffic r).
Definition set_tcp_conn_num (v : Z) (r : Row) : Row :=
  mkRow (port r) (method r) (password r) (enable r) (speed_limit r)
        (access_order r) (need_sync r) (ip_list r) v (upload_traffic r)
        (download_traffic r).
Definition set_upload_traffic (v : Z) (r : Row) : Row :=
  mkRow (port r) (method r) (password r) (enable r) (speed_limit r)
        (access_order r) (need_sync r) (ip_list r) (tcp_conn_num r) v
        (download_traffic r).
Definition set_download_traffic (v : Z) (r : Row) : Row :=
  mkRow (port r) (method r) (password r) (enable r) (speed_limit r)
        (access_order r) (need_sync r) (ip_list r) (tcp_conn_num r)
        (upload_traffic r) v.

(** *** The SQL statements the model issues *)

(** [SELECT ... FROM user]: the rows in the order the engine enumerates
    them, which is a fixed function of the table's contents. *)
Definition select_all (tbl : Table) : list (Z * Row) := map_to_list tbl.

(** [UPDATE user SET ... WHERE user_id = uid], for assignments that touch
    no constrained column: no row matches when [uid] is absent. *)
Definition update_by_id (uid : Z) (f : Row → Row) (tbl : Table) : Table :=
  alter f uid tbl.

(** [UPDATE user SET ... WHERE cond]. *)
Definition update_where (cond : Row → bool) (f : Row → Row) (tbl : Table)
  : Table :=
  (λ r, if cond r then f r else r) <$> tbl.

(** The UNIQUE constraint on [password]: does a row other than [uid]
    already hold [pw]? *)
Definition password_taken (uid : Z) (pw : string) (tbl : Table) : bool :=
  bool_decide (map_Exists (λ k r, k ≠ uid ∧ password r = pw) tbl).

(** ** Bulk import of user definitions *)

Definition __attr_protected__ : gset string := {["user_id"]}.
Definition __attr_accessible__ : gset string :=
  {["port"; "method"; "password"; "enable"; "speed_limit"]}.

(** [data.pop("user_id")]: the value under the key and the dict without
    it; [KeyError] when the key is absent. *)
Definition pop_user_id (data : UserData) : Result (Z * UserData) :=
  match d_user_id data with
  | Some uid =>
      Ok (uid, mkUserData None (d_port data) (d_method data)
                          (d_password data) (d_enable data)
                          (d_speed_limit data))
  | None => Raise (KeyError "user_id")
  end.

(** [setattr(self, k, v)] for a key [k] of the dict, filtered as
    [update_from_dict] filters it. *)
Definition setattr_allowed {A} (k : string) (v : option A)
    (set : A → UserObj → UserObj) (u : UserObj) : UserObj :=
  match v with
  | Some a =>
      if bool_decide (k ∈ __attr_accessible__ ∖ __attr_protected__)
      then set a u else u
  | None => u
  end.

Definition on_fields (f : Row → Row) (u : UserObj) : UserObj :=
  mkUserObj (user_id u) (f (fields u)).

(** Modelled from the spec: [BaseModel.update_from_dict] of
    [shadowsocks.mdb] is not part of the sources.  The spec has it "apply
    only the allow-listed mutable fields to the existing record", with
    "protected fields ([user_id]) never overwritten": every key of the
    dict that is in [__attr_accessible__] and not in [__attr_protected__]
    is assigned to the instance, the other keys are ignored. *)
Definition update_from_dict (u : UserObj) (data : UserData) : UserObj :=
  let u := setattr_allowed "user_id" (d_user_id data)
             (λ v u, mkUserObj v (fields u)) u in
  let u := setattr_allowed "port" (d_port data)
             (λ v, on_fields (set_port v)) u in
  let u := setattr_allowed "method" (d_method data)
             (λ v, on_fields (set_method v)) u in
  let u := setattr_allowed "password" (d_password data)
             (λ v, on_fields (set_password v)) u in
  let u := setattr_allowed "enable" (d_enable data)
             (λ v, on_fields (set_enable v)) u in
  setattr_allowed "speed_limit" (d_speed_limit data)
             (λ v, on_fields (set_speed_limit v)) u.

(** peewee's [Model.save()] on an instance that holds every column:
    [UPDATE user SET <all columns> WHERE user_id = self.user_id].  The
    statement fails when it would give two rows one password, and changes
    nothing when no row has the key. *)
Definition Model_save (u : UserObj) (tbl : Table) : Result Table :=
  match tbl !! user_id u with
  | None => Ok tbl
  | Some _ =>
      if password_taken (user_id u) (password (fields u)) tbl
      then Raise (IntegrityError "UNIQUE constraint failed: user.password")
      else Ok (<[user_id u := fields u]> tbl)
  end.

(** peewee's [cls.create(user_id=uid, **defaults)]: the instance gets the
    column defaults, then the keyword arguments, and is inserted.  [port],
    [method] and [password] have no default and may not be NULL.  The
    default of [ip_list] is [set()], evaluated once in the class body:
    every created instance holds that one set object, and its row is
    inserted with what the object contains at that moment,
    [shared_ip_list]. *)
Definition Model_create (shared_ip_list : gset string) (uid : Z)
    (defaults : UserData) (tbl : Table) : Result (UserObj * Table) :=
  let uid := default uid (d_user_id defaults) in
  match d_port defaults, d_method defaults, d_password defaults with
  | Some p, Some m, Some pw =>
      let r := mkRow p m pw
                 (default default_enable (d_enable defaults))
                 (default default_speed_limit (d_speed_limit defaults))
                 default_access_order default_need_sync shared_ip_list
                 default_tcp_conn_num default_upload_traffic
                 default_download_traffic in
      if bool_decide (is_Some (tbl !! uid))
      then Raise (IntegrityError "UNIQUE constraint failed: user.user_id")
      else if password_taken uid pw tbl
      then Raise (IntegrityError "UNIQUE constraint failed: user.password")
      else Ok (mkUserObj uid r, <[uid := r]> tbl)
  | _, _, _ => Raise (IntegrityError "NOT NULL constraint failed")
  end.

(** peewee's [cls.get_or_create(user_id=uid, defaults=data)]: the row with
    the key when there is one, else a new one.  (After a failed insert
    peewee looks the key up once more; nothing has changed, so the error
    of the insert is raised.) *)
Definition get_or_create (shared_ip_list : gset string) (uid : Z)
    (defaults : UserData) (tbl : Table) : Result (UserObj * bool * Table) :=
  match tbl !! uid with
  | Some r => Ok (mkUserObj uid r, false, tbl)
  | None =>
      try! ut ← Model_create shared_ip_list uid defaults tbl;
      Ok (ut.1, true, ut.2)
  end.

(** [User._create_or_update_user_from_data], one EXCLUSIVE transaction:
    when it raises, the transaction is rolled back and the caller is left
    with the table it had. *)
Definition _create_or_update_user_from_data (shared_ip_list : gset string)
    (data : UserData) (tbl : Table) : Result (UserObj * Table) :=
  try! popped ← pop_user_id data;
  let '(uid, data) := popped in
  try! got ← get_or_create shared_ip_list uid data tbl;
  let '(user, created, tbl) := got in
  if (created : bool) then Ok (user, tbl)
  else
    let user := update_from_dict user data in
    try! tbl ← Model_save user tbl;
    Ok (user, tbl).

(** [User.create_or_update_from_json], from the parsed file on: the loop
    over [data["users"]].  An exception leaves the loop; the transactions
    of the records before it are committed.  The instances the records
    return are dropped, so the shared default set is read, not changed. *)
Fixpoint create_or_update_from_json (shared_ip_list : gset string)
    (users : list UserData) (tbl : Table) : Table * Result unit :=
  match users with
  | [] => (tbl, Ok tt)
  | user_data :: rest =>
      match _create_or_update_user_from_data shared_ip_list user_data tbl with
      | Ok (_, tbl') => create_or_update_from_json shared_ip_list rest tbl'
      | Raise e => (tbl, Raise e)
      end
  end.

(** [User.create_or_update_from_remote]: the same loop over the users of
    the response to [http_session.request("get", url)]. *)
Definition create_or_update_from_remote (shared_ip_list : gset string)
    (request_get : string → Result (list UserData)) (url : string)
    (tbl : Table) : Table * Result unit :=
  match request_get url with
  | Ok users => create_or_update_from_json shared_ip_list users tbl
  | Raise e => (tbl, Raise e)
  end.

(** ** Candidates of a port *)

Definition candidate_of (kr : Z * Row) : Candidate :=
  mkCandidate kr.1 (method kr.2) (password kr.2) (enable kr.2)
              (ip_list kr.2) (access_order kr.2).

(** [ORDER BY access_order DESC], as SQLite runs it: the sort is stable
    over the scan of the rows of the port, which goes by rowid, and the
    rowid is [user_id] (an INTEGER PRIMARY KEY).  A row comes before
    another when its [access_order] is higher, or equal with a lower
    [user_id]. *)
Definition access_order_desc (a b : Z * Row) : Prop :=
  access_order b.2 < access_order a.2 ∨
  (access_order a.2 = access_order b.2 ∧ a.1 ≤ b.1).

#[global] Instance access_order_desc_dec a b : Decision (access_order_desc a b).
Proof. unfold access_order_desc. apply _. Defined.


(** [User.list_by_port]: the query names one sort key; rows with equal
    [access_order] come in the order described above. *)
Definition list_by_port (prt : Z) (tbl : Table) : list Candidate :=
  candidate_of <$>
    merge_sort access_order_desc
      (filter (λ kr, port kr.2 = prt) (select_all tbl)).

(** ** Accounting *)

(** What a caller passes as [peername]: [None], an empty tuple, or an
    address whose first component is the host. *)
Inductive Peername :=
  | PeerNone
  | PeerEmpty
  | PeerAddr (host : string) (peer_port : Z).

(** Python truth of a [peername]. *)
Definition truthy (peername : Peername) : bool :=
  match peername with
  | PeerNone | PeerEmpty => false
  | PeerAddr _ _ => true
  end.

(** [User.record_ip]: returns the instance, whose [ip_list] the method
    extends in place, and the table. *)
Definition record_ip (self : Candidate) (peername : Peername) (tbl : Table)
  : Candidate * Table :=
  match peername with
  | PeerAddr host _ =>
      let self := mkCandidate (c_user_id self) (c_method self)
                    (c_password self) (c_enable self)
                    ({[host]} ∪ c_ip_list self) (c_access_order self) in
      (self,
       update_by_id (c_user_id self)
         (λ r, set_need_sync true (set_ip_list (c_ip_list self) r)) tbl)
  | _ => (self, tbl)
  end.

(** [User.record_traffic].  The sums are the engine's as long as the
    amounts and the results stay inside its INTEGER range ([int64]
    below); the statements that depend on a sum say so. *)
Definition record_traffic (self : Candidate) (used_u used_d : Z)
    (tbl : Table) : Table :=
  update_by_id (c_user_id self)
    (λ r, set_need_sync true
            (set_upload_traffic (upload_traffic r + used_u)
               (set_download_traffic (download_traffic r + used_d) r)))
    tbl.

(** [User.incr_tcp_conn_num]; the sum as in [record_traffic]. *)
Definition incr_tcp_conn_num (self : Candidate) (num : Z) (tbl : Table)
  : Table :=
  update_by_id (c_user_id self)
    (λ r, set_need_sync true (set_tcp_conn_num (tcp_conn_num r + num) r))
    tbl.

(** ** Flushing the metrics *)

Definition metrics_of (kr : Z * Row) : Metrics :=
  mkMetrics kr.1 (ip_list kr.2) (tcp_conn_num kr.2) (upload_traffic kr.2)
            (download_traffic kr.2).

(** The assignments of the bulk update in [flush_metrics_to_remote]. *)
Definition clear_metrics (r : Row) : Row :=
  set_need_sync false
    (set_download_traffic 0 (set_upload_traffic 0 (set_ip_list ∅ r))).

(** The transaction of [flush_metrics_to_remote]: select the rows with
    [need_sync == True], then reset them. *)
Definition select_and_clear (tbl : Table) : list Metrics * Table :=
  let users :=
    metrics_of <$> filter (λ kr, need_sync kr.2 = true) (select_all tbl) in
  (users, update_where need_sync clear_metrics tbl).

Definition wire_of (user : Metrics) : WireRecord :=
  mkWire (m_user_id user) (elements (m_ip_list user)) (m_tcp_conn_num user)
         (m_upload_traffic user) (m_download_traffic user).

(** The [data] list that [flush_metrics_to_remote] posts. *)
Definition flush_data (tbl : Table) : list WireRecord :=
  wire_of <$> (select_and_clear tbl).1.

(** [User.flush_metrics_to_remote]; [request_post url data] stands for
    [http_session.request("post", url, json={"data": data})], which may
    raise. *)
Definition flush_metrics_to_remote
    (request_post : string → list WireRecord → Result unit) (url : string)
    (tbl : Table) : Table * Result unit :=
  let '(users, tbl) := select_and_clear tbl in
  let data := wire_of <$> users in
  (tbl, request_post url data).

(** ** Identification *)

(** The interface of [shadowsocks.ciphers.BaseCipher] that the model
    uses: the constructor from a password, and the two decoders, which
    return the plaintext and leave the cipher in a new state. *)
Class BaseCipher (C : Type) := {
  cipher_cls : string → Result C;
  decrypt : C → list Byte.byte → Result (list Byte.byte * C);
  unpack : C → list Byte.byte → Result (list Byte.byte * C)
}.

(** peewee's [Model.save()] on an instance of [list_by_port]: the update
    assigns the columns the instance holds.  This is the save as the
    table decides it; what the storage may refuse for reasons of its own
    (a locked database) is the [save] parameter of the call below. *)
Definition Candidate_save (c : Candidate) (tbl : Table) : Result Table :=
  match tbl !! c_user_id c with
  | None => Ok tbl
  | Some r =>
      if password_taken (c_user_id c) (c_password c) tbl
      then Raise (IntegrityError "UNIQUE constraint failed: user.password")
      else Ok (<[c_user_id c :=
                  set_access_order (c_access_order c)
                    (set_ip_list (c_ip_list c)
                       (set_enable (c_enable c)
                          (set_password (c_password c)
                             (set_method (c_method c) r))))]> tbl)
  end.

(** What the [except ValueError] clause of the loop does with an
    exception of the body: [None] to go on with the next user, or the
    exception that leaves the function. *)
Definition except_ValueError (e : exn) : option exn :=
  match e with
  | ValueError [] => Some IndexError
  | ValueError (a :: _) =>
      if bool_decide (a ≠ "MAC check failed") then Some e else None
  | _ => Some e
  end.

(** [access_user.access_order += 1]. *)
Definition incr_access_order (user : Candidate) : Candidate :=
  mkCandidate (c_user_id user) (c_method user) (c_password user)
    (c_enable user) (c_ip_list user) (c_access_order user + 1).

Section Identification.
Context {C : Type} `{!BaseCipher C}.

(** The persistence call [access_user.save()]. *)
Variable save : Candidate → Table → Result Table.

(** The body of the [try]: build the cipher for the user and decode
    the first data with it. *)
Definition try_user (ts_protocol : Transport) (first_data : list Byte.byte)
    (user : Candidate) : Result C :=
  try! cipher ← cipher_cls (c_password user);
  try! out ← (if bool_decide (ts_protocol = TRANSPORT_TCP)
              then decrypt cipher first_data
              else unpack cipher first_data);
  Ok out.2.

(** The [for] loop: the users tried, in order, and the outcome: the
    matching user with its cipher, no user, or an exception. *)
Fixpoint find_loop (ts_protocol : Transport) (first_data : list Byte.byte)
    (users : list Candidate)
  : list Candidate * Result (option (Candidate * C)) :=
  match users with
  | [] => ([], Ok None)
  | user :: rest =>
      match try_user ts_protocol first_data user with
      | Ok cipher => ([user], Ok (Some (user, cipher)))
      | Raise e =>
          match except_ValueError e with
          | Some e' => ([user], Raise e')
          | None =>
              let '(tried, r) := find_loop ts_protocol first_data rest in
              (user :: tried, r)
          end
      end
  end.

(** [User.find_access_user_and_cipher_by_data]: the users tried, the
    table afterwards, and the result. *)
Definition find_access_user_and_cipher_by_data (prt : Z)
    (ts_protocol : Transport) (first_data : list Byte.byte) (tbl : Table)
  : list Candidate * Table * Result (Candidate * C) :=
  let '(tried, r) :=
    find_loop ts_protocol first_data (list_by_port prt tbl) in
  match r with
  | Raise e => (tried, tbl, Raise e)
  | Ok None => (tried, tbl, Raise (RuntimeError prt ts_protocol))
  | Ok (Some (access_user, cipher)) =>
      if bool_decide (c_enable access_user = false)
      then (tried, tbl, Raise (RuntimeError prt ts_protocol))
      else
        let access_user := incr_access_order access_user in
        match save access_user tbl with
        | Ok tbl' => (tried, tbl', Ok (access_user, cipher))
        | Raise e => (tried, tbl, Raise e)
        end
  end.
End Identification.

(** ** Reachable states *)

(** The state a run of the service changes: the table, and the content
    of the one set object that is the default of [ip_list]. *)
Abbreviation State := (Table * gset string)%type.

Section Reachable.
Context {C : Type} `{!BaseCipher C}.

(** One call of a method of the model, by any caller with any
    arguments, takes the state to the next one.  [record_ip] comes
    twice: on an instance read from the table, whose [ip_list] is a set
    of its own, and on an instance a record has just created
    ([_create_or_update_user_from_data] returns it), whose [ip_list] is
    the shared default set, so that what the method adds stays in the
    default. *)
Inductive step : State → State → Prop :=
  | step_from_json users tbl shared :
      step (tbl, shared)
           ((create_or_update_from_json shared users tbl).1, shared)
  | step_from_remote request_get url tbl shared :
      step (tbl, shared)
           ((create_or_update_from_remote shared request_get url tbl).1,
            shared)
  | step_flush request_post url tbl shared :
      step (tbl, shared)
           ((flush_metrics_to_remote request_post url tbl).1, shared)
  | step_record_ip self peername tbl shared :
      step (tbl, shared) ((record_ip self peername tbl).2, shared)
  | step_record_ip_created self peername tbl shared :
      c_ip_list self = shared →
      step (tbl, shared)
           ((record_ip self peername tbl).2,
            c_ip_list (record_ip self peername tbl).1)
  | step_record_traffic self used_u used_d tbl shared :
      step (tbl, shared) (record_traffic self used_u used_d tbl, shared)
  | step_incr_tcp_conn_num self num tbl shared :
      step (tbl, shared) (incr_tcp_conn_num self num tbl, shared)
  | step_find_access_user prt ts_protocol first_data tbl shared :
      step (tbl, shared)
        ((find_access_user_and_cipher_by_data Candidate_save prt
            ts_protocol first_data tbl).1.2, shared).

(** The states a run of the service can reach from the empty table and
    the empty default set. *)
Definition reachable (st : State) : Prop := rtc step (∅, ∅) st.
End Reachable.

(** ** Properties the statements below are phrased with *)

(** The exception is the MAC failure the loop looks for. *)
Definition is_mac_failure (e : exn) : Prop :=
  ∃ rest, e = ValueError ("MAC check failed" :: rest).

Section Properties.
Context {C : Type} `{!BaseCipher C}.
Variables (ts_protocol : Transport) (first_data : list Byte.byte).

(** The user's cipher decodes the first data. *)
Definition decodes (user : Candidate) : Prop :=
  ∃ cipher : C, try_user ts_protocol first_data user = Ok cipher.

(** Whatever the user's trial raises is a MAC failure. *)
Definition fails_only_by_mac (user : Candidate) : Prop :=
  ∀ e, try_user ts_protocol first_data user = Raise e → is_mac_failure e.

Definition no_user_decodes (users : list Candidate) : Prop :=
  Forall (λ user, ¬ decodes user) users.

Definition first_decoding_user_disabled (users : list Candidate) : Prop :=
  ∃ pre user post,
    users = pre ++ user :: post ∧ no_user_decodes pre ∧ decodes user ∧
    c_enable user = false.
End Properties.

(** C1 as the specification words it, at one call: the call raises the
    [RuntimeError] exactly when no user decodes or the first one that
    does is disabled, and when no user decodes every user was tried. *)
Definition no_accessible_user_claim {C : Type} `{!BaseCipher C} (prt : Z)
    (ts_protocol : Transport) (first_data : list Byte.byte) (tbl : Table)
  : Prop :=
  let users := list_by_port prt tbl in
  let out := find_access_user_and_cipher_by_data Candidate_save prt
               ts_protocol first_data tbl in
  (out.2 = Raise (RuntimeError prt ts_protocol) ↔
     no_user_decodes ts_protocol first_data users ∨
     first_decoding_user_disabled ts_protocol first_data users) ∧
  (no_user_decodes ts_protocol first_data users → out.1.1 = users).

(** C4 as the specification words it, at one call: when the loop has
    matched an enabled user and saving the incremented order fails, the
    call still returns that user and cipher. *)
Definition save_failure_tolerated_claim {C : Type} `{!BaseCipher C}
    (save : Candidate → Table → Result Table) (prt : Z)
    (ts_protocol : Transport) (first_data : list Byte.byte) (tbl : Table)
  : Prop :=
  ∀ user cipher e,
    (find_loop ts_protocol first_data (list_by_port prt tbl)).2
      = Ok (Some (user, cipher)) →
    c_enable user = true →
    save (incr_access_order user) tbl = Raise e →
    (find_access_user_and_cipher_by_data save prt ts_protocol first_data
       tbl).2 = Ok (incr_access_order user, cipher).

(** The row after the assignments of [update_from_dict]: the
    allow-listed columns take the values the dict has for them. *)
Definition merged_row (data : UserData) (r : Row) : Row :=
  mkRow (default (port r) (d_port data)) (default (method r) (d_method data))
        (default (password r) (d_password data))
        (default (enable r) (d_enable data))
        (default (speed_limit r) (d_speed_limit data))
        (access_order r) (need_sync r) (ip_list r) (tcp_conn_num r)
        (upload_traffic r) (download_traffic r).

(** The record has nothing left to change in the table: its row is
    there, already merged, with a password no other row holds. *)
Definition settled (data : UserData) (tbl : Table) : Prop :=
  ∃ uid r, d_user_id data = Some uid ∧ tbl !! uid = Some r ∧
           merged_row data r = r ∧
           password_taken uid (password r) tbl = false.

(** C5 as the specification words it, at one call: an import that fails
    on a record without [user_id] leaves the table as it was. *)
Definition failed_import_unchanged_claim (shared_ip_list : gset string)
    (users : list UserData) (tbl : Table) : Prop :=
  (create_or_update_from_json shared_ip_list users tbl).2
    = Raise (KeyError "user_id") →
  (create_or_update_from_json shared_ip_list users tbl).1 = tbl.

(** C8 as the specification words it, at one payload: importing it a
    second time leaves the table the first import produced. *)
Definition import_twice_claim (shared_ip_list : gset string)
    (users : list UserData) (tbl : Table) : Prop :=
  let once := (create_or_update_from_json shared_ip_list users tbl).1 in
  (create_or_update_from_json shared_ip_list users once).1 = once.

(** C3 as the specification words it, at one table: a row is marked for
    sync exactly when one of the three columns is away from its
    default. *)
Definition need_sync_iff_pending_claim (tbl : Table) : Prop :=
  ∀ k r, tbl !! k = Some r →
    (need_sync r = true ↔
     ip_list r ≠ ∅ ∨ upload_traffic r ≠ 0 ∨ download_traffic r ≠ 0).

(** Some accounting column of the row is away from its default. *)
Definition metrics_pending (r : Row) : Prop :=
  ip_list r ≠ ∅ ∨ upload_traffic r ≠ 0 ∨ download_traffic r ≠ 0.

(** Every row with a pending accounting column is marked for sync. *)
Definition pending_rows_marked (tbl : Table) : Prop :=
  ∀ k r, tbl !! k = Some r → metrics_pending r → need_sync r = true.

(** In the state, the byte counters of a row are zero unless the row is
    marked for sync, and an unmarked row holds no address but those of
    the shared default set. *)
Definition metrics_accounted (st : State) : Prop :=
  ∀ k r, st.1 !! k = Some r →
    (upload_traffic r ≠ 0 ∨ download_traffic r ≠ 0 → need_sync r = true) ∧
    (need_sync r = true ∨ ip_list r ⊆ st.2).

(** The table after importing user A and opening one connection. *)
Definition table_one_conn : Table :=
  incr_tcp_conn_num (mkCandidate 1 "aes-256-gcm" "pA" true ∅ 0) 1
    (create_or_update_from_json ∅
       [mkUserData (Some 1) (Some 8388) (Some "aes-256-gcm") (Some "pA")
          None None] ∅).1.

(** The table after importing user A, 10 and 20 bytes of traffic and one
    peer address. *)
Definition table_busy : Table :=
  (record_ip (mkCandidate 1 "aes-256-gcm" "pA" true ∅ 0)
     (PeerAddr "10.0.0.1" 4000)
     (record_traffic (mkCandidate 1 "aes-256-gcm" "pA" true ∅ 0) 10 20
        (create_or_update_from_json ∅
           [mkUserData (Some 1) (Some 8388) (Some "aes-256-gcm") (Some "pA")
              None None] ∅).1)).2.

(** The columns that a flush leaves alone agree. *)
Definition same_outside_metrics (r r' : Row) : Prop :=
  port r' = port r ∧ method r' = method r ∧ password r' = password r ∧
  enable r' = enable r ∧ speed_limit r' = speed_limit r ∧
  access_order r' = access_order r ∧ tcp_conn_num r' = tcp_conn_num r.

(** ** A cipher and tables to run the model on *)

#[global] Instance byte_eq_dec : EqDecision Byte.byte := Byte.byte_eq_dec.

(** A stand-in for an AEAD cipher: a packet is the key followed by the
    payload.  A packet with another prefix fails the MAC check, an empty
    one is refused as too short. *)
Definition tag_open (key : string) (data : list Byte.byte)
  : Result (list Byte.byte * string) :=
  let tag := String.list_byte_of_string key in
  match data with
  | [] => Raise (ValueError ["ciphertext too short"])
  | _ =>
      if bool_decide (take (length tag) data = tag)
      then Ok (drop (length tag) data, key)
      else Raise (ValueError ["MAC check failed"])
  end.

#[global] Instance TagCipher : BaseCipher string := {|
  cipher_cls := λ pw, Ok pw;
  decrypt := tag_open;
  unpack := tag_open
|}.

Definition row_A : Row :=
  mkRow 8388 "aes-256-gcm" "pA" true 0 0 false ∅ 0 0 0.
Definition row_B : Row :=
  mkRow 8388 "aes-256-gcm" "pB" false 0 0 false ∅ 0 0 0.
Definition table_A : Table := {[1 := row_A]}.
Definition table_AB : Table := <[2 := row_B]> table_A.
Definition user_A : Candidate := candidate_of (1, row_A).
Definition user_B : Candidate := candidate_of (2, row_B).
Definition packet (key payload : string) : list Byte.byte :=
  String.list_byte_of_string (key +:+ payload).

Definition data_A : UserData :=
  mkUserData (Some 1) (Some 8388) (Some "aes-256-gcm") (Some "pA") None None.
Definition data_no_id : UserData :=
  mkUserData None (Some 8388) (Some "aes-256-gcm") (Some "pC") None None.

(** A payload that names user 1 three times and moves password ["a"]
    from user 1 to user 2. *)
Definition payload_swap : list UserData :=
  [ mkUserData (Some 1) (Some 1) (Some "m") (Some "b") None None;
    mkUserData (Some 1) None None (Some "a") None None;
    mkUserData (Some 1) (Some 2) None (Some "b") None None;
    mkUserData (Some 2) (Some 1) (Some "m") (Some "a") None None ].

Definition post_refused (url : string) (data : list WireRecord)
  : Result unit := Raise (ConnectionError "connection refused").

Definition save_refused (user : Candidate) (tbl : Table) : Result Table :=
  Raise (OperationalError "database is locked").

(** ** Further notions the statements use *)

(** No two rows hold the same password. *)
Definition passwords_unique (tbl : Table) : Prop :=
  ∀ k1 k2 r1 r2,
    tbl !! k1 = Some r1 → tbl !! k2 = Some r2 →
    password r1 = password r2 → k1 = k2.

(** The bytes a list of snapshots reports for one user. *)
Definition drained_upload (uid : Z) (users : list Metrics) : Z :=
  foldr (λ m acc,
           if bool_decide (m_user_id m = uid)
           then m_upload_traffic m + acc else acc) 0 users.
Definition drained_download (uid : Z) (users : list Metrics) : Z :=
  foldr (λ m acc,
           if bool_decide (m_user_id m = uid)
           then m_download_traffic m + acc else acc) 0 users.

(** The decoder the loop calls for a transport. *)
Definition decode_with {C : Type} `{!BaseCipher C} (ts_protocol : Transport)
    (cipher : C) (first_data : list Byte.byte)
  : Result (list Byte.byte * C) :=
  if bool_decide (ts_protocol = TRANSPORT_TCP)
  then decrypt cipher first_data
  else unpack cipher first_data.

(** The row agrees with every key the record carries. *)
Definition row_holds (data : UserData) (r : Row) : Prop :=
  (∀ v, d_port data = Some v → port r = v) ∧
  (∀ v, d_method data = Some v → method r = v) ∧
  (∀ v, d_password data = Some v → password r = v) ∧
  (∀ v, d_enable data = Some v → enable r = v) ∧
  (∀ v, d_speed_limit data = Some v → speed_limit r = v).

(** The columns no import assigns on an existing row agree. *)
Definition same_outside_definition (r r' : Row) : Prop :=
  access_order r' = access_order r ∧ need_sync r' = need_sync r ∧
  ip_list r' = ip_list r ∧ tcp_conn_num r' = tcp_conn_num r ∧
  upload_traffic r' = upload_traffic r ∧
  download_traffic r' = download_traffic r.

(** Every row of the first table is still in the second, with an
    [access_order] that is not lower. *)
Definition rows_persist (tbl tbl' : Table) : Prop :=
  ∀ k r, tbl !! k = Some r →
    ∃ r', tbl' !! k = Some r' ∧ access_order r ≤ access_order r'.

(** The range of SQLite's INTEGER, inside which the sums of the model
    are the sums the engine computes. *)
Definition int64 (z : Z) : Prop := - 2 ^ 63 ≤ z ≤ 2 ^ 63 - 1.

(** The exception that leaves the loop for an exception of a trial that
    is not the MAC failure: the exception itself, but for a [ValueError]
    without arguments, where [e.args[0]] raises [IndexError]. *)
Definition raised_for (e : exn) : exn :=
  match e with
  | ValueError [] => IndexError
  | _ => e
  end.

(** A cipher whose decoders raise a [ValueError] without arguments. *)
Definition BareCipher : BaseCipher unit := {|
  cipher_cls := λ _, Ok tt;
  decrypt := λ _ _, Raise (ValueError []);
  unpack := λ _ _, Raise (ValueError [])
|}.

(** A cipher like [TagCipher] whose constructor refuses the password
    ["pB"]. *)
Definition PickyCipher : BaseCipher string := {|
  cipher_cls := λ pw,
    if bool_decide (pw = "pB")
    then Raise (ValueError ["unsupported key"]) else Ok pw;
  decrypt := tag_open;
  unpack := tag_open
|}.

(** Users A and C, both enabled, imported into the empty table. *)
Definition data_C : UserData :=
  mkUserData (Some 3) (Some 8388) (Some "aes-256-gcm") (Some "pC") None None.
Definition table_AC : Table :=
  (create_or_update_from_json ∅
     [mkUserData (Some 1) (Some 8388) (Some "aes-256-gcm") (Some "pA")
        None None; data_C] ∅).1.
Definition user_C : Candidate :=
  mkCandidate 3 "aes-256-gcm" "pC" true ∅ 0.

Definition data_B : UserData :=
  mkUserData (Some 2) (Some 8388) (Some "aes-256-gcm") (Some "pB")
    (Some false) None.

(** * Proofs *)

(** ** The table statements *)

Lemma select_all_lookup (tbl : Table) k r :
  (k, r) ∈ select_all tbl ↔ tbl !! k = Some r.
Proof. apply elem_of_map_to_list. Qed.

Lemma update_where_lookup cond f (tbl : Table) k :
  update_where cond f tbl !! k =
    (λ r, if cond r then f r else r) <$> tbl !! k.
Proof. unfold update_where. apply lookup_fmap. Qed.

Lemma update_by_id_eq uid f (tbl : Table) :
  update_by_id uid f tbl !! uid = f <$> tbl !! uid.
Proof. unfold update_by_id. apply lookup_alter_eq. Qed.

Lemma update_by_id_ne uid f (tbl : Table) k :
  uid ≠ k → update_by_id uid f tbl !! k = tbl !! k.
Proof. unfold update_by_id. apply lookup_alter_ne. Qed.

Lemma password_taken_false uid pw (tbl : Table) :
  password_taken uid pw tbl = false ↔
  ∀ k r, tbl !! k = Some r → k ≠ uid → password r ≠ pw.
Proof.
  unfold password_taken. rewrite bool_decide_eq_false. split.
  - intros Hno k r Hk Hne Hpw. apply Hno. exists k, r. auto.
  - intros Hall (k & r & Hk & Hne & Hpw). exact (Hall k r Hk Hne Hpw).
Qed.

Lemma password_taken_insert uid pw r (tbl : Table) :
  password_taken uid pw (<[uid := r]> tbl) = password_taken uid pw tbl.
Proof.
  destruct (password_taken uid pw tbl) eqn:Hold.
  - apply bool_decide_eq_true. apply bool_decide_eq_true in Hold.
    destruct Hold as (k & r' & Hk & Hne & Hpw).
    exists k, r'. rewrite lookup_insert_ne by done. auto.
  - apply password_taken_false. intros k r' Hk Hne.
    rewrite lookup_insert_ne in Hk by done.
    eapply password_taken_false; eauto.
Qed.

(** ** record_ip without a peer *)

(** C10: when [peername] is [None] or empty, [record_ip] returns at once:
    the instance and the table, and so every column of every row
    ([ip_list] and [need_sync] among them), are what they were. *)
Theorem record_ip_no_peer_is_noop self peername tbl :
  truthy peername = false →
  record_ip self peername tbl = (self, tbl).
Proof. destruct peername; simpl; [done | done | discriminate]. Qed.

Lemma record_ip_no_peer_is_noop_witness :
  truthy PeerEmpty = false ∧
  record_ip user_A PeerEmpty table_AB = (user_A, table_AB).
Proof.
  split; [reflexivity |].
  apply (record_ip_no_peer_is_noop user_A PeerEmpty table_AB). reflexivity.
Defined.

(** ** Traffic counters and the flush *)

Lemma select_and_clear_users tbl m :
  m ∈ (select_and_clear tbl).1 ↔
  ∃ k r, tbl !! k = Some r ∧ need_sync r = true ∧ m = metrics_of (k, r).
Proof.
  unfold select_and_clear; simpl. rewrite list_elem_of_fmap. split.
  - intros ([k r] & -> & Hin). apply list_elem_of_filter in Hin as [Hd Hin].
    apply select_all_lookup in Hin. exists k, r. auto.
  - intros (k & r & Hk & Hd & ->). exists (k, r). split; [done |].
    apply list_elem_of_filter. split; [done |]. by apply select_all_lookup.
Qed.

Lemma select_and_clear_lookup tbl k :
  (select_and_clear tbl).2 !! k =
    (λ r, if need_sync r then clear_metrics r else r) <$> tbl !! k.
Proof. unfold select_and_clear; simpl. apply update_where_lookup. Qed.

Lemma select_and_clear_clean tbl k r :
  (select_and_clear tbl).2 !! k = Some r →
  need_sync r = false ∧
  ∃ r0, tbl !! k = Some r0 ∧ same_outside_metrics r0 r ∧
        (need_sync r0 = true →
         ip_list r = ∅ ∧ upload_traffic r = 0 ∧ download_traffic r = 0) ∧
        (need_sync r0 = false → r = r0).
Proof.
  rewrite select_and_clear_lookup. destruct (tbl !! k) as [r0|]; [|done].
  simpl. intros [= <-]. destruct (need_sync r0) eqn:Hd.
  - split; [done |]. exists r0. repeat split; try done. congruence.
  - split; [done |]. exists r0. repeat split; try done; congruence.
Qed.

Lemma select_and_clear_again tbl :
  (select_and_clear (select_and_clear tbl).2).1 = [].
Proof.
  destruct (select_and_clear (select_and_clear tbl).2).1 as [|m l] eqn:Hl;
    [done |].
  assert (Hm : m ∈ (select_and_clear (select_and_clear tbl).2).1)
    by (rewrite Hl; left).
  apply select_and_clear_users in Hm as (k & r & Hk & Hd & _).
  apply select_and_clear_clean in Hk as [Hclean _]. congruence.
Qed.

(** C7: for a user whose byte counters are at their default,
    [record_traffic(100, 200)], [record_traffic(50, 0)] and the flush
    transaction give a snapshot of the user, and every snapshot of the
    user has upload 150 and download 200; the transaction run once more
    on the table it left selects no snapshot of the user. *)
Theorem traffic_then_flush_scenario self tbl r :
  tbl !! c_user_id self = Some r →
  upload_traffic r = 0 →
  download_traffic r = 0 →
  let tbl2 := record_traffic self 50 0 (record_traffic self 100 200 tbl) in
  let drained := select_and_clear tbl2 in
  (∃ m, m ∈ drained.1 ∧ m_user_id m = c_user_id self) ∧
  (∀ m, m ∈ drained.1 → m_user_id m = c_user_id self →
        m_upload_traffic m = 150 ∧ m_download_traffic m = 200) ∧
  (∀ m, m ∈ (select_and_clear drained.2).1 → m_user_id m ≠ c_user_id self).
Proof.
  intros Hr Hu Hd tbl2 drained.
  assert (H2 : tbl2 !! c_user_id self =
               Some (set_need_sync true
                       (set_upload_traffic 150
                          (set_download_traffic 200 r)))).
  { unfold tbl2, record_traffic. rewrite !update_by_id_eq, Hr. simpl.
    rewrite Hu, Hd. reflexivity. }
  split; [| split].
  - eexists (metrics_of (c_user_id self, _)). split; [| reflexivity].
    apply select_and_clear_users. eexists _, _. split; [exact H2 |]. done.
  - intros m Hm Hid. apply select_and_clear_users in Hm as (k & r' & Hk & _ & ->).
    simpl in Hid. subst k. rewrite H2 in Hk. injection Hk as <-. done.
  - intros m Hm. unfold drained in Hm. rewrite select_and_clear_again in Hm.
    by apply elem_of_nil in Hm.
Qed.

Lemma traffic_then_flush_scenario_witness :
  let tbl2 := record_traffic user_A 50 0
                (record_traffic user_A 100 200 table_AB) in
  let drained := select_and_clear tbl2 in
  (∃ m, m ∈ drained.1 ∧ m_user_id m = 1) ∧
  (∀ m, m ∈ drained.1 → m_user_id m = 1 →
        m_upload_traffic m = 150 ∧ m_download_traffic m = 200) ∧
  (∀ m, m ∈ (select_and_clear drained.2).1 → m_user_id m ≠ 1).
Proof.
  apply (traffic_then_flush_scenario user_A table_AB row_A);
    reflexivity.
Defined.



(** ** list_by_port *)

#[global] Instance access_order_desc_trans : Transitive access_order_desc.
Proof. unfold access_order_desc. intros a b c ? ?. lia. Qed.

#[global] Instance access_order_desc_total : Total access_order_desc.
Proof. unfold access_order_desc. intros a b. lia. Qed.

Lemma list_by_port_elem prt tbl c :
  c ∈ list_by_port prt tbl ↔
  ∃ k r, tbl !! k = Some r ∧ port r = prt ∧ c = candidate_of (k, r).
Proof.
  unfold list_by_port. rewrite list_elem_of_fmap. split.
  - intros ([k r] & -> & Hin). rewrite merge_sort_Permutation in Hin.
    apply list_elem_of_filter in Hin as [Hp Hin].
    apply select_all_lookup in Hin. exists k, r. auto.
  - intros (k & r & Hk & Hp & ->). exists (k, r). split; [done |].
    rewrite merge_sort_Permutation. apply list_elem_of_filter.
    split; [done |]. by apply select_all_lookup.
Qed.





(** With users A (key 1) and B (key 2) on the port and equal
    [access_order], A comes first. *)
Lemma list_by_port_table_AB : list_by_port 8388 table_AB = [user_A; user_B].
Proof. vm_compute. reflexivity. Qed.

Lemma list_by_port_table_A : list_by_port 8388 table_A = [user_A].
Proof. vm_compute. reflexivity. Qed.

(** ** The identification loop *)

Lemma except_ValueError_None e :
  except_ValueError e = None ↔ is_mac_failure e.
Proof.
  unfold is_mac_failure. split.
  - destruct e as [[|a args]| | | | | |]; simpl; try discriminate.
    case_bool_decide as Ha; [discriminate |]. intros _.
    exists args. f_equal. f_equal. by destruct (decide (a = "MAC check failed")).
  - intros [rest ->]. reflexivity.
Qed.

Section IdentificationProofs.
Context {C : Type} `{!BaseCipher C}.
Variable save : Candidate → Table → Result Table.
Variables (ts_protocol : Transport) (first_data : list Byte.byte).

Abbreviation try1 := (try_user ts_protocol first_data).
Abbreviation loop := (find_loop ts_protocol first_data).

Lemma find_loop_cons_mac user rest e :
  try1 user = Raise e → is_mac_failure e →
  loop (user :: rest) = (user :: (loop rest).1, (loop rest).2).
Proof.
  intros He Hmac. apply except_ValueError_None in Hmac. simpl.
  rewrite He, Hmac. by destruct (loop rest).
Qed.

Lemma find_loop_cons_raise user rest e e' :
  try1 user = Raise e → except_ValueError e = Some e' →
  loop (user :: rest) = ([user], Raise e').
Proof. intros He Hex. simpl. by rewrite He, Hex. Qed.

Lemma find_loop_cons_ok user rest cipher :
  try1 user = Ok cipher →
  loop (user :: rest) = ([user], Ok (Some (user, cipher))).
Proof. intros He. simpl. by rewrite He. Qed.

(** Users that fail the MAC check are passed over. *)
Lemma find_loop_app_mac pre users :
  Forall (λ u, ∃ e, try1 u = Raise e ∧ is_mac_failure e) pre →
  loop (pre ++ users) = (pre ++ (loop users).1, (loop users).2).
Proof.
  induction 1 as [|u pre (e & He & Hmac) _ IH]; simpl app.
  - by destruct (loop users).
  - rewrite (find_loop_cons_mac _ _ _ He Hmac), IH. done.
Qed.

Lemma except_ValueError_raised e :
  ¬ is_mac_failure e → except_ValueError e = Some (raised_for e).
Proof.
  intros Hno. destruct (except_ValueError e) as [e'|] eqn:He.
  - destruct e as [[|a args]| | | | | |]; simpl in He |- *; try done.
    by case_bool_decide.
  - by apply except_ValueError_None in He.
Qed.

(** X23: when the users before a user fail the MAC check and that
    user's trial raises anything else, the call ends there: the users
    after it are not tried, the table is untouched, and the caller gets
    the exception itself, or [IndexError] in place of a [ValueError]
    that has no arguments. *)
Theorem non_mac_error_ends_identification prt tbl pre user post e :
  list_by_port prt tbl = pre ++ user :: post →
  Forall (λ u, ∃ e0, try1 u = Raise e0 ∧ is_mac_failure e0) pre →
  try1 user = Raise e →
  ¬ is_mac_failure e →
  find_access_user_and_cipher_by_data save prt ts_protocol first_data tbl
    = (pre ++ [user], tbl, Raise (raised_for e)).
Proof.
  intros Hlist Hpre He Hno.
  unfold find_access_user_and_cipher_by_data. rewrite Hlist.
  rewrite (find_loop_app_mac _ _ Hpre).
  by rewrite (find_loop_cons_raise _ _ _ _ He (except_ValueError_raised e Hno)).
Qed.

Lemma mac_failures_do_not_decode pre :
  Forall (λ u, ∃ e, try1 u = Raise e ∧ is_mac_failure e) pre →
  no_user_decodes ts_protocol first_data pre.
Proof.
  intros Hpre. eapply Forall_impl; [exact Hpre |].
  intros u (e & He & _) [cipher Hc]. congruence.
Qed.

Lemma find_loop_first_match pre user post cipher :
  Forall (λ u, ∃ e, try1 u = Raise e ∧ is_mac_failure e) pre →
  try1 user = Ok cipher →
  loop (pre ++ user :: post) = (pre ++ [user], Ok (Some (user, cipher))).
Proof.
  intros Hpre Hok. rewrite (find_loop_app_mac _ _ Hpre).
  by rewrite (find_loop_cons_ok _ _ _ Hok).
Qed.

(** The user the loop matches is one of the users it was given. *)
Lemma find_loop_match_elem users tried user cipher :
  loop users = (tried, Ok (Some (user, cipher))) → user ∈ users.
Proof.
  revert tried. induction users as [|u users IH]; intros tried; simpl.
  - discriminate.
  - destruct (try1 u) as [c|e].
    + intros [= _ -> _]. left.
    + destruct (except_ValueError e); [discriminate |].
      destruct (loop users) as [tr r]. intros [= _ ->].
      right. by eapply IH.
Qed.

(** How the loop ends: without a match after every user failed the MAC
    check, at the first user that decodes, or at the first user whose
    trial raises something else. *)
Lemma find_loop_cases users :
  (Forall (λ u, ∃ e, try1 u = Raise e ∧ is_mac_failure e) users ∧
   loop users = (users, Ok None)) ∨
  (∃ pre user post cipher,
     users = pre ++ user :: post ∧
     Forall (λ u, ∃ e, try1 u = Raise e ∧ is_mac_failure e) pre ∧
     try1 user = Ok cipher ∧
     loop users = (pre ++ [user], Ok (Some (user, cipher)))) ∨
  (∃ pre user post e e',
     users = pre ++ user :: post ∧
     Forall (λ u, ∃ e, try1 u = Raise e ∧ is_mac_failure e) pre ∧
     try1 user = Raise e ∧ except_ValueError e = Some e' ∧
     loop users = (pre ++ [user], Raise e')).
Proof.
  induction users as [|u users IH]; [left; by split |].
  destruct (try1 u) as [cipher|e] eqn:Hu.
  - right. left. exists [], u, users, cipher.
    split; [done |]. split; [constructor |]. split; [done |].
    by apply find_loop_cons_ok.
  - destruct (except_ValueError e) as [e'|] eqn:Hex.
    + right. right. exists [], u, users, e, e'.
      split; [done |]. split; [constructor |]. split; [done |].
      split; [done |]. by apply find_loop_cons_raise with (e := e).
    + assert (Hmac : is_mac_failure e) by by apply except_ValueError_None.
      assert (Hu' : ∃ e0, try1 u = Raise e0 ∧ is_mac_failure e0)
        by (by exists e).
      rewrite (find_loop_cons_mac _ users _ Hu Hmac).
      destruct IH as [[Hall Hloop]
                     | [(pre & user & post & cipher & -> & Hpre & Hok & Hloop)
                       | (pre & user & post & e1 & e' & -> & Hpre & He1 & Hex1
                          & Hloop)]].
      * left. split; [by constructor |]. by rewrite Hloop.
      * right. left. exists (u :: pre), user, post, cipher.
        split; [done |]. split; [by constructor |]. split; [done |].
        by rewrite Hloop.
      * right. right. exists (u :: pre), user, post, e1, e'.
        split; [done |]. split; [by constructor |]. split; [done |].
        split; [done |]. by rewrite Hloop.
Qed.

(** The first user that decodes is one user. *)
Lemma first_decoding_user_unique pre user post pre' user' post' :
  pre ++ user :: post = pre' ++ user' :: post' →
  no_user_decodes ts_protocol first_data pre →
  decodes ts_protocol first_data user →
  no_user_decodes ts_protocol first_data pre' →
  decodes ts_protocol first_data user' →
  user = user'.
Proof.
  revert pre'. induction pre as [|p pre IH]; intros [|p' pre'] Heq Hpre Hu
    Hpre' Hu'; simpl in Heq.
  - by injection Heq.
  - injection Heq as -> _. apply Forall_cons in Hpre' as [Hno _]. by destruct Hno.
  - injection Heq as <- _. apply Forall_cons in Hpre as [Hno _]. by destruct Hno.
  - injection Heq as _ Heq. apply Forall_cons in Hpre as [_ Hpre].
    apply Forall_cons in Hpre' as [_ Hpre']. by eapply IH.
Qed.

(** The users the call tried are the users the loop tried. *)
Lemma find_access_user_tried prt tbl :
  (find_access_user_and_cipher_by_data save prt ts_protocol first_data
     tbl).1.1 = (loop (list_by_port prt tbl)).1.
Proof.
  unfold find_access_user_and_cipher_by_data.
  destruct (loop (list_by_port prt tbl)) as [tried [[[user cipher]|]|e]];
    try done.
  case_bool_decide; [done |].
  by destruct (save (incr_access_order user) tbl).
Qed.

(** C4, as the code has it: once the loop has matched an enabled user,
    the call returns what [save] allows: the user with the incremented
    order and its cipher, on the saved table, when [save] succeeds; the
    exception of [save], on the table as it was, when [save] raises. *)
Theorem save_failure_propagates prt tbl user cipher :
  (loop (list_by_port prt tbl)).2 = Ok (Some (user, cipher)) →
  c_enable user = true →
  let out := find_access_user_and_cipher_by_data save prt ts_protocol
               first_data tbl in
  match save (incr_access_order user) tbl with
  | Ok tbl' => out.2 = Ok (incr_access_order user, cipher) ∧ out.1.2 = tbl'
  | Raise e => out.2 = Raise e ∧ out.1.2 = tbl
  end.
Proof.
  intros Hloop Hen. unfold find_access_user_and_cipher_by_data.
  destruct (loop (list_by_port prt tbl)) as [tried r]. simpl in Hloop.
  subst r. rewrite bool_decide_eq_false_2 by congruence.
  by destruct (save (incr_access_order user) tbl).
Qed.

End IdentificationProofs.

Lemma Candidate_save_raises c tbl e :
  Candidate_save c tbl = Raise e → ∃ msg, e = IntegrityError msg.
Proof.
  unfold Candidate_save. destruct (tbl !! c_user_id c); [| discriminate].
  destruct (password_taken _ _ _); [| discriminate].
  intros [= <-]. by eexists.
Qed.

(** C1, as the code has it: when no trial the call makes raises
    anything but the MAC failure, the call raises the [RuntimeError]
    exactly when no user decodes the data or the first user that does
    is disabled; and when no user decodes it, the users tried are the
    candidates of the port, each once, in their order. *)
Theorem no_accessible_user_iff {C : Type} `{!BaseCipher C}
    prt ts_protocol first_data tbl :
  Forall (fails_only_by_mac ts_protocol first_data)
    (find_access_user_and_cipher_by_data Candidate_save prt ts_protocol
       first_data tbl).1.1 →
  no_accessible_user_claim prt ts_protocol first_data tbl.
Proof.
  intros Htried. unfold no_accessible_user_claim.
  rewrite find_access_user_tried in Htried |- *.
  set (users := list_by_port prt tbl) in *.
  unfold find_access_user_and_cipher_by_data. fold users.
  destruct (find_loop_cases ts_protocol first_data users)
    as [[Hall Hloop]
       | [(pre & user & post & cipher & Husers & Hpre & Hok & Hloop)
         | (pre & user & post & e & e' & Husers & Hpre & He & Hex & Hloop)]];
    rewrite Hloop in Htried |- *; cbn [fst snd] in Htried |- *.
  - pose proof (mac_failures_do_not_decode _ _ _ Hall) as Hno.
    split; [| done]. split; [by left | done].
  - assert (Hu : decodes ts_protocol first_data user) by by exists cipher.
    assert (Hsome : ¬ no_user_decodes ts_protocol first_data users).
    { intros Hno. rewrite Husers in Hno. apply Forall_app in Hno as [_ Hno].
      by apply Forall_cons in Hno as [Hnu _]. }
    split; [| by intros Hno].
    split.
    + intros Hout. right. exists pre, user, post.
      split; [done |]. split; [by apply mac_failures_do_not_decode |].
      split; [done |].
      case_bool_decide as Hen; [done |].
      destruct (Candidate_save _ tbl) as [tbl'|e] eqn:Hsave;
        simpl in Hout; [discriminate |].
      apply Candidate_save_raises in Hsave as [msg ->]. discriminate.
    + intros [Hno | (pre' & user' & post' & Husers' & Hpre' & Hu' & Hdis)];
        [done |].
      assert (user = user') as <-.
      { apply (first_decoding_user_unique ts_protocol first_data
                 pre user post pre' user' post'); try done.
        - congruence.
        - by apply mac_failures_do_not_decode. }
      by rewrite bool_decide_eq_true_2.
  - exfalso. apply Forall_app in Htried as [_ Hlast].
    apply Forall_cons in Hlast as [Hlast _].
    apply Hlast in He. apply except_ValueError_None in He. congruence.
Qed.

Lemma non_mac_error_ends_identification_witness :
  find_access_user_and_cipher_by_data (BaseCipher0 := PickyCipher)
    Candidate_save 8388 TRANSPORT_TCP (packet "pC" "hello") table_AB
  = ([user_A] ++ [user_B], table_AB,
     Raise (raised_for (ValueError ["unsupported key"]))).
Proof.
  apply (non_mac_error_ends_identification (BaseCipher0 := PickyCipher)
           Candidate_save TRANSPORT_TCP (packet "pC" "hello") 8388 table_AB
           [user_A] user_B [] (ValueError ["unsupported key"])).
  - exact list_by_port_table_AB.
  - constructor; [| constructor].
    exists (ValueError ["MAC check failed"]).
    split; [vm_compute; reflexivity | by exists []].
  - reflexivity.
  - intros [rest Hrest]. discriminate.
Defined.

(** C2: the loop passes over a MAC failure and re-raises every other
    exception, but it looks at [e.args[0]] to tell them apart: for a
    [ValueError] without arguments that lookup raises, and the caller
    gets [IndexError], not the error of the trial.  Here the decoder of
    the one candidate raises such a [ValueError]. *)
Theorem value_error_without_arguments_is_replaced :
  try_user (BaseCipher0 := BareCipher) TRANSPORT_TCP (packet "pA" "hello")
    user_A = Raise (ValueError []) ∧
  find_access_user_and_cipher_by_data (BaseCipher0 := BareCipher)
    Candidate_save 8388 TRANSPORT_TCP (packet "pA" "hello") table_A
  = ([user_A], table_A, Raise IndexError).
Proof. split; vm_compute; reflexivity. Qed.

(** With one user on the port and an empty first packet the trial
    raises "ciphertext too short": no user decodes, and the call raises
    that [ValueError], not the [RuntimeError]. *)
Lemma no_accessible_user_claim_fails :
  ¬ no_accessible_user_claim (C := string) 8388 TRANSPORT_TCP [] table_A.
Proof.
  intros [[_ Hraise] _].
  assert (Hno : no_user_decodes (C := string) TRANSPORT_TCP []
                  (list_by_port 8388 table_A)).
  { rewrite list_by_port_table_A. constructor; [| constructor].
    intros [cipher Hc]. vm_compute in Hc. discriminate. }
  specialize (Hraise (or_introl Hno)). vm_compute in Hraise. discriminate.
Qed.

Lemma no_accessible_user_iff_witness :
  Forall (fails_only_by_mac (C := string) TRANSPORT_TCP (packet "pC" "hello"))
    (find_access_user_and_cipher_by_data (C := string) Candidate_save 8388
       TRANSPORT_TCP (packet "pC" "hello") table_AB).1.1 ∧
  no_user_decodes (C := string) TRANSPORT_TCP (packet "pC" "hello")
    (list_by_port 8388 table_AB) ∧
  no_accessible_user_claim (C := string) 8388 TRANSPORT_TCP
    (packet "pC" "hello") table_AB.
Proof.
  assert (Htried :
    (find_access_user_and_cipher_by_data (C := string) Candidate_save 8388
       TRANSPORT_TCP (packet "pC" "hello") table_AB).1.1 = [user_A; user_B])
    by (vm_compute; reflexivity).
  assert (Hmac : Forall (fails_only_by_mac (C := string) TRANSPORT_TCP
                           (packet "pC" "hello")) [user_A; user_B]).
  { repeat constructor; intros e He; vm_compute in He;
      injection He as <-; by exists []. }
  split; [by rewrite Htried |]. split.
  - rewrite list_by_port_table_AB.
    repeat constructor; intros [cipher Hc]; vm_compute in Hc; discriminate.
  - apply (no_accessible_user_iff 8388 TRANSPORT_TCP (packet "pC" "hello")
             table_AB).
    by rewrite Htried.
Defined.

(** User A is enabled and owns the key of the packet; [save] raises
    "database is locked", and so does the call. *)
Lemma save_failure_tolerated_claim_fails :
  ¬ save_failure_tolerated_claim (C := string) save_refused 8388
      TRANSPORT_TCP (packet "pA" "hello") table_A.
Proof.
  intros Hclaim.
  specialize (Hclaim user_A "pA" (OperationalError "database is locked")).
  assert (Hloop : (find_loop (C := string) TRANSPORT_TCP (packet "pA" "hello")
                     (list_by_port 8388 table_A)).2
                  = Ok (Some (user_A, "pA")))
    by (vm_compute; reflexivity).
  specialize (Hclaim Hloop eq_refl eq_refl).
  vm_compute in Hclaim. discriminate.
Qed.

Lemma save_failure_propagates_witness :
  let out := find_access_user_and_cipher_by_data (C := string) save_refused
               8388 TRANSPORT_TCP (packet "pA" "hello") table_A in
  out.2 = Raise (OperationalError "database is locked") ∧ out.1.2 = table_A.
Proof.
  apply (save_failure_propagates (C := string) save_refused TRANSPORT_TCP
           (packet "pA" "hello") 8388 table_A user_A "pA").
  - vm_compute. reflexivity.
  - reflexivity.
Defined.

(** ** Bulk import *)

Section ImportProofs.
Variable shared : gset string.

Lemma update_from_dict_merged u data :
  update_from_dict u data = mkUserObj (user_id u) (merged_row data (fields u)).
Proof.
  destruct u as [uid r], data as [i p m pw en sl].
  destruct i, p, m, pw, en, sl, r; vm_compute; reflexivity.
Qed.

Lemma merged_row_idem data r :
  merged_row data (merged_row data r) = merged_row data r.
Proof. destruct data as [i [?|] [?|] [?|] [?|] [?|]]; reflexivity. Qed.

Lemma merged_row_pop data r uid data' :
  pop_user_id data = Ok (uid, data') →
  d_user_id data = Some uid ∧ merged_row data' r = merged_row data r ∧
  d_user_id data' = None ∧ d_port data' = d_port data ∧
  d_method data' = d_method data ∧ d_password data' = d_password data ∧
  d_enable data' = d_enable data ∧ d_speed_limit data' = d_speed_limit data.
Proof.
  unfold pop_user_id. destruct (d_user_id data) eqn:Hid; [| discriminate].
  intros [= <- <-]. done.
Qed.

(** What a successful [_create_or_update_user_from_data] did: it wrote
    one row, under the [user_id] of the record, whose password no other
    row holds and which the record's assignments leave as it is; the row
    is the old one with the record merged in, or a new one whose
    accounting columns have their defaults ([ip_list] what the shared
    default set holds). *)
Lemma create_or_update_ok data tbl u tbl' :
  _create_or_update_user_from_data shared data tbl = Ok (u, tbl') →
  ∃ uid r',
    d_user_id data = Some uid ∧ u = mkUserObj uid r' ∧
    tbl' = <[uid := r']> tbl ∧
    password_taken uid (password r') tbl = false ∧
    merged_row data r' = r' ∧
    ((∃ r, tbl !! uid = Some r ∧ r' = merged_row data r) ∨
     (tbl !! uid = None ∧ need_sync r' = false ∧ ip_list r' = shared ∧
      upload_traffic r' = 0 ∧ download_traffic r' = 0)).
Proof.
  unfold _create_or_update_user_from_data.
  destruct (pop_user_id data) as [[uid data']|e] eqn:Hpop; [| discriminate].
  apply (merged_row_pop data) with (r := mkRow 0 "" "" true 0 0 false ∅ 0 0 0)
    in Hpop as Hfields.
  destruct Hfields as (Hid & _ & Hid' & Hp & Hm & Hpw & Hen & Hsl).
  cbn [rbind]. unfold get_or_create.
  destruct (tbl !! uid) as [r|] eqn:Hrow; cbn [rbind].
  - rewrite update_from_dict_merged. unfold Model_save.
    cbn [user_id fields]. rewrite Hrow.
    assert (Hmerge : merged_row data' r = merged_row data r).
    { unfold merged_row. by rewrite Hp, Hm, Hpw, Hen, Hsl. }
    rewrite Hmerge.
    destruct (password_taken uid _ tbl) eqn:Htaken; [discriminate |].
    cbn [rbind]. intros [= <- <-]. exists uid, (merged_row data r).
    split; [done |]. split; [done |]. split; [done |]. split; [done |].
    split; [apply merged_row_idem | left; eauto].
  - unfold Model_create. rewrite Hid'. simpl. rewrite Hp, Hm, Hpw.
    destruct (d_port data) as [p|] eqn:Hdp; [| discriminate].
    destruct (d_method data) as [m|] eqn:Hdm; [| discriminate].
    destruct (d_password data) as [pw|] eqn:Hdpw; [| discriminate].
    rewrite Hrow. rewrite bool_decide_eq_false_2 by (by intros [? ?]).
    destruct (password_taken uid pw tbl) eqn:Htaken; [discriminate |].
    simpl. intros [= <- <-]. eexists uid, _.
    repeat split; try done.
    + unfold merged_row. simpl. rewrite Hdp, Hdm, Hdpw, Hen, Hsl.
      by destruct (d_enable data), (d_speed_limit data).
    + right. done.
Qed.

(** A record whose row is in the table, merged and with a password of
    its own, is applied without any change. *)
Lemma create_or_update_settled data tbl uid r :
  d_user_id data = Some uid →
  tbl !! uid = Some r →
  merged_row data r = r →
  password_taken uid (password r) tbl = false →
  _create_or_update_user_from_data shared data tbl = Ok (mkUserObj uid r, tbl).
Proof.
  intros Hid Hrow Hmerged Htaken.
  unfold _create_or_update_user_from_data, pop_user_id. rewrite Hid.
  cbn [rbind]. unfold get_or_create. rewrite Hrow. cbn [rbind].
  rewrite update_from_dict_merged. unfold Model_save.
  cbn [user_id fields]. rewrite Hrow.
  assert (Hm : merged_row
                 (mkUserData None (d_port data) (d_method data)
                    (d_password data) (d_enable data) (d_speed_limit data)) r
               = r) by exact Hmerged.
  rewrite Hm, Htaken. cbn [rbind]. by rewrite insert_id.
Qed.

Lemma settled_after data tbl u tbl' :
  _create_or_update_user_from_data shared data tbl = Ok (u, tbl') →
  settled data tbl'.
Proof.
  intros Hok.
  apply create_or_update_ok in Hok
    as (uid & r' & Hid & _ & -> & Htaken & Hmerged & _).
  exists uid, r'. split; [done |]. split; [apply lookup_insert_eq |].
  split; [done |]. by rewrite password_taken_insert.
Qed.

Lemma settled_preserved_step data tbl uid data' u' tbl' :
  settled data tbl →
  d_user_id data = Some uid →
  d_user_id data' ≠ Some uid →
  _create_or_update_user_from_data shared data' tbl = Ok (u', tbl') →
  settled data tbl'.
Proof.
  intros (uid0 & r & Hid0 & Hrow & Hmerged & Htaken) Hid Hne Hok.
  assert (uid0 = uid) as -> by congruence.
  apply create_or_update_ok in Hok
    as (uid' & r' & Hid' & _ & -> & Htaken' & _ & _).
  assert (Hneq : uid' ≠ uid) by congruence.
  exists uid, r. split; [done |].
  split; [by rewrite lookup_insert_ne |]. split; [done |].
  apply password_taken_false. intros k rk Hk Hkne.
  destruct (decide (k = uid')) as [-> | Hk'].
  - rewrite lookup_insert_eq in Hk. injection Hk as <-.
    intros Heq. rewrite password_taken_false in Htaken'.
    apply (Htaken' uid r Hrow); [congruence | done].
  - rewrite lookup_insert_ne in Hk by done.
    rewrite password_taken_false in Htaken. by eapply Htaken.
Qed.

Lemma settled_preserved users data tbl uid :
  settled data tbl →
  d_user_id data = Some uid →
  uid ∉ omap d_user_id users →
  settled data (create_or_update_from_json shared users tbl).1.
Proof.
  revert tbl. induction users as [|d users IH]; intros tbl Hs Hid Hnin;
    [done |].
  simpl.
  destruct (_create_or_update_user_from_data shared d tbl)
    as [[u' tbl']|e] eqn:Hd;
    [| done].
  apply IH; [| done |].
  - eapply settled_preserved_step; [done | done | | done].
    intros Heq. apply Hnin. simpl. rewrite Heq. left.
  - intros Hin. apply Hnin. simpl. destruct (d_user_id d); [by right | done].
Qed.

Lemma create_or_update_from_json_app pre post tbl :
  create_or_update_from_json shared (pre ++ post) tbl =
    match create_or_update_from_json shared pre tbl with
    | (tbl', Ok _) => create_or_update_from_json shared post tbl'
    | (tbl', Raise e) => (tbl', Raise e)
    end.
Proof.
  revert tbl. induction pre as [|d pre IH]; intros tbl; simpl; [done |].
  destruct (_create_or_update_user_from_data shared d tbl) as [[u' tbl']|e];
    [apply IH | done].
Qed.

(** No import removes a row: the keys of the table stay. *)
Lemma create_or_update_from_json_keys users tbl k :
  is_Some (tbl !! k) →
  is_Some ((create_or_update_from_json shared users tbl).1 !! k).
Proof.
  revert tbl. induction users as [|d users IH]; intros tbl Hk; simpl;
    [done |].
  destruct (_create_or_update_user_from_data shared d tbl)
    as [[u' tbl']|e] eqn:Hd;
    [| done].
  apply IH. apply create_or_update_ok in Hd as (uid & r' & _ & _ & -> & _).
  destruct (decide (uid = k)) as [-> | Hne].
  - rewrite lookup_insert_eq. by eexists.
  - by rewrite lookup_insert_ne.
Qed.

(** C5, as the code has it: every record is applied in a transaction of
    its own.  At a record without [user_id] the import raises the
    [KeyError]; the records before it stay applied (the table is the one
    they produced), that record and the ones after it are not applied.
    When a record before it raises, the import ends there with that
    exception. *)
Theorem import_stops_at_record_without_user_id pre data post tbl :
  d_user_id data = None →
  let before := create_or_update_from_json shared pre tbl in
  create_or_update_from_json shared (pre ++ data :: post) tbl =
    (before.1,
     match before.2 with
     | Ok _ => Raise (KeyError "user_id")
     | Raise e => Raise e
     end).
Proof.
  intros Hid before. rewrite create_or_update_from_json_app. fold before.
  destruct before as [tbl' [[]|e]]; simpl; [| done].
  unfold _create_or_update_user_from_data, pop_user_id. by rewrite Hid.
Qed.

(** C8, as the code has it: for a payload that names no [user_id] twice,
    a second import leaves the table, and the outcome, of the first.
    [user_id] is not assigned by [update_from_dict] even when the dict
    has the key, and no row of the table loses its key. *)
Theorem import_twice_same_as_once users tbl :
  NoDup (omap d_user_id users) →
  create_or_update_from_json shared users
    (create_or_update_from_json shared users tbl).1
    = create_or_update_from_json shared users tbl ∧
  import_twice_claim shared users tbl ∧
  (∀ u data, user_id (update_from_dict u data) = user_id u) ∧
  (∀ k, is_Some (tbl !! k) →
        is_Some ((create_or_update_from_json shared users tbl).1 !! k)).
Proof.
  intros Hnodup.
  assert (Hidem : create_or_update_from_json shared users
                    (create_or_update_from_json shared users tbl).1
                  = create_or_update_from_json shared users tbl).
  { revert tbl Hnodup. induction users as [|d users IH]; intros tbl Hnodup;
      [done |].
    simpl.
    destruct (_create_or_update_user_from_data shared d tbl)
      as [[u' tbl']|e] eqn:Hd.
    - pose proof (create_or_update_ok _ _ _ _ Hd) as (uid & r' & Hid & _).
      simpl in Hnodup. rewrite Hid in Hnodup.
      apply NoDup_cons in Hnodup as [Hnin Hnodup].
      pose proof (settled_preserved users d tbl' uid
                    (settled_after _ _ _ _ Hd) Hid Hnin)
        as (uid0 & r & Hid0 & Hrow & Hmerged & Htaken).
      rewrite (create_or_update_settled _ _ _ _ Hid0 Hrow Hmerged Htaken).
      by apply IH.
    - simpl. by rewrite Hd. }
  split; [done |]. split; [| split].
  - unfold import_twice_claim. simpl. by rewrite Hidem.
  - intros u data. by rewrite update_from_dict_merged.
  - intros k. apply create_or_update_from_json_keys.
Qed.

End ImportProofs.

Lemma import_stops_at_record_without_user_id_witness :
  d_user_id data_no_id = None ∧
  create_or_update_from_json ∅ ([data_A] ++ data_no_id :: [data_A]) ∅ =
    ({[1 := row_A]}, Raise (KeyError "user_id")).
Proof.
  split; [reflexivity |].
  rewrite (import_stops_at_record_without_user_id ∅ [data_A] data_no_id
             [data_A] ∅ eq_refl).
  vm_compute. reflexivity.
Defined.

(** The record of user 1 is committed before the record without
    [user_id] raises: the import fails and the table has changed. *)
Lemma failed_import_unchanged_claim_fails :
  ¬ failed_import_unchanged_claim ∅ [data_A; data_no_id] ∅.
Proof.
  intros Hclaim.
  assert (Hraise : (create_or_update_from_json ∅ [data_A; data_no_id] ∅).2
                   = Raise (KeyError "user_id")) by (vm_compute; reflexivity).
  specialize (Hclaim Hraise).
  assert (Hrow : (create_or_update_from_json ∅ [data_A; data_no_id] ∅).1 !! 1
                 = Some row_A) by (vm_compute; reflexivity).
  rewrite Hclaim in Hrow. by rewrite lookup_empty in Hrow.
Qed.

Lemma import_twice_same_as_once_witness :
  NoDup (omap d_user_id [data_A; data_no_id]) ∧
  import_twice_claim ∅ [data_A; data_no_id] ∅.
Proof.
  assert (Hnodup : NoDup (omap d_user_id [data_A; data_no_id])).
  { simpl. apply NoDup_singleton. }
  split; [exact Hnodup |].
  exact (proj1 (proj2 (import_twice_same_as_once ∅ [data_A; data_no_id] ∅
                         Hnodup))).
Defined.

(** The payload [payload_swap] imports into the empty table without an
    error and leaves user 1 on port 2.  Imported again, its first record
    puts user 1 back on port 1 and its second record is refused, because
    user 2 now holds password ["a"]: user 1 stays on port 1. *)
Lemma import_twice_claim_fails : ¬ import_twice_claim ∅ payload_swap ∅.
Proof.
  unfold import_twice_claim. intros Hclaim.
  apply (f_equal (λ tbl : Table, port <$> tbl !! 1)) in Hclaim.
  vm_compute in Hclaim. discriminate.
Qed.

(** ** The sync mark on reachable states *)

Lemma metrics_accounted_insert tbl shared k r :
  metrics_accounted (tbl, shared) →
  (upload_traffic r ≠ 0 ∨ download_traffic r ≠ 0 → need_sync r = true) →
  (need_sync r = true ∨ ip_list r ⊆ shared) →
  metrics_accounted (<[k := r]> tbl, shared).
Proof.
  intros Hinv Hbytes Hips k' r' Hk'. cbn [fst snd] in *.
  destruct (decide (k = k')) as [-> | Hne].
  - rewrite lookup_insert_eq in Hk'. by injection Hk' as <-.
  - rewrite lookup_insert_ne in Hk' by done. exact (Hinv k' r' Hk').
Qed.

Lemma metrics_accounted_update uid f tbl shared shared' :
  shared ⊆ shared' →
  (∀ r, need_sync (f r) = true) →
  metrics_accounted (tbl, shared) →
  metrics_accounted (update_by_id uid f tbl, shared').
Proof.
  intros Hsub Hf Hinv k r Hk. cbn [fst snd] in *.
  destruct (decide (uid = k)) as [-> | Hne].
  - rewrite update_by_id_eq in Hk. destruct (tbl !! k); [| done].
    injection Hk as <-. split; [intros _; apply Hf | left; apply Hf].
  - rewrite update_by_id_ne in Hk by done.
    destruct (Hinv k r Hk) as [Hbytes [Hmark | Hips]].
    + split; [done | by left].
    + split; [done |]. right. cbn [snd] in Hips. set_solver.
Qed.

Lemma metrics_accounted_import shared users tbl :
  metrics_accounted (tbl, shared) →
  metrics_accounted ((create_or_update_from_json shared users tbl).1, shared).
Proof.
  revert tbl. induction users as [|d users IH]; intros tbl Hinv; [done |].
  simpl.
  destruct (_create_or_update_user_from_data shared d tbl)
    as [[u' tbl']|e] eqn:Hd; [| done].
  apply IH.
  apply create_or_update_ok in Hd
    as (uid & r' & _ & _ & -> & _ & _ & Hrow).
  destruct Hrow as [(r & Hr & ->) | (_ & Hmark & Hip & Hup & Hdown)].
  - destruct (Hinv uid r Hr) as [Hbytes Hips].
    by apply metrics_accounted_insert.
  - apply metrics_accounted_insert; [done | |].
    + intros [? | ?]; congruence.
    + right. by rewrite Hip.
Qed.

Lemma metrics_accounted_flush tbl shared :
  metrics_accounted (tbl, shared) →
  metrics_accounted ((select_and_clear tbl).2, shared).
Proof.
  intros Hinv k r Hk. cbn [fst snd] in *.
  apply select_and_clear_clean in Hk as [_ (r0 & Hr0 & _ & Hclear & Hsame)].
  destruct (need_sync r0) eqn:Hd.
  - destruct (Hclear eq_refl) as (Hip & Hup & Hdown). split.
    + intros [? | ?]; congruence.
    + right. rewrite Hip. set_solver.
  - rewrite (Hsame eq_refl). exact (Hinv k r0 Hr0).
Qed.

Lemma Candidate_save_from_row k r tbl tbl' :
  tbl !! k = Some r →
  Candidate_save (incr_access_order (candidate_of (k, r))) tbl = Ok tbl' →
  tbl' = <[k := set_access_order (access_order r + 1) r]> tbl.
Proof.
  intros Hr. unfold Candidate_save. cbn [incr_access_order candidate_of
    c_user_id c_method c_password c_enable c_ip_list c_access_order fst snd].
  rewrite Hr. destruct (password_taken _ _ _); [discriminate |].
  intros [= <-]. by destruct r.
Qed.

(** What [record_ip] leaves in the instance's list. *)
Lemma record_ip_instance_list self peername tbl :
  c_ip_list self ⊆ c_ip_list (record_ip self peername tbl).1.
Proof. destruct peername; simpl; set_solver. Qed.

Section ReachableProofs.
Context {C : Type} `{!BaseCipher C}.

(** The table after the call is the one before, or the one [save] gave
    for a candidate of the port. *)
Lemma find_access_user_table save prt ts_protocol first_data tbl :
  let out := find_access_user_and_cipher_by_data save prt ts_protocol
               first_data tbl in
  out.1.2 = tbl ∨
  ∃ user, user ∈ list_by_port prt tbl ∧
          save (incr_access_order user) tbl = Ok out.1.2.
Proof.
  unfold find_access_user_and_cipher_by_data.
  destruct (find_loop ts_protocol first_data (list_by_port prt tbl))
    as [tried [[[user cipher]|]|e]] eqn:Hloop; simpl; try by left.
  case_bool_decide; [by left |].
  destruct (save (incr_access_order user) tbl) as [tbl'|e] eqn:Hsave;
    [| by left].
  right. exists user. split; [| done].
  by eapply find_loop_match_elem.
Qed.

Lemma metrics_accounted_step st st' :
  step st st' → metrics_accounted st → metrics_accounted st'.
Proof.
  intros Hstep Hinv. destruct Hstep.
  - by apply metrics_accounted_import.
  - unfold create_or_update_from_remote.
    destruct (request_get url); [by apply metrics_accounted_import | done].
  - unfold flush_metrics_to_remote.
    pose proof (metrics_accounted_flush tbl shared Hinv) as Hflush.
    by destruct (select_and_clear tbl).
  - destruct peername; try done.
    by apply (metrics_accounted_update _ _ tbl shared shared).
  - pose proof (record_ip_instance_list self peername tbl) as Hsub.
    rewrite H in Hsub. destruct peername.
    + simpl. by rewrite H.
    + simpl. by rewrite H.
    + by apply (metrics_accounted_update _ _ tbl shared).
  - by apply (metrics_accounted_update _ _ tbl shared shared).
  - by apply (metrics_accounted_update _ _ tbl shared shared).
  - destruct (find_access_user_table Candidate_save prt ts_protocol
                first_data tbl) as [-> | (user & Hin & Hsave)]; [done |].
    apply list_by_port_elem in Hin as (k & r & Hr & _ & ->).
    rewrite (Candidate_save_from_row _ _ _ _ Hr Hsave).
    destruct (Hinv k r Hr) as [Hbytes Hips].
    by apply metrics_accounted_insert.
Qed.

Lemma metrics_accounted_rtc st :
  rtc step (∅, ∅) st → metrics_accounted st.
Proof.
  revert st. apply (rtc_ind_r metrics_accounted).
  - intros k r Hk. cbn [fst] in Hk. by rewrite lookup_empty in Hk.
  - intros st st' _ Hstep Hinv. by apply (metrics_accounted_step st st').
Qed.

(** C3, as the code has it: in every reachable state a row with a
    non-zero byte counter is marked for sync, and a row with addresses in
    its [ip_list] is marked for sync or holds only addresses of the
    shared default set of [ip_list]; as long as that set is empty, every
    row with a non-empty [ip_list] or a non-zero byte counter is marked.
    (The mark alone says less: [incr_tcp_conn_num] sets it too.)  The
    flush transaction rewrites the marked rows and only them, and in
    them only [ip_list], the two byte counters and the mark: afterwards
    every row is still there with its other columns as they were, no
    mark, zero byte counters, and an [ip_list] that is empty if the row
    was marked. *)
Theorem pending_metrics_marked_and_flush_resets tbl shared :
  reachable (tbl, shared) →
  metrics_accounted (tbl, shared) ∧
  (shared = ∅ → pending_rows_marked tbl) ∧
  (∀ k, (select_and_clear tbl).2 !! k =
        (λ r, if need_sync r then clear_metrics r else r) <$> tbl !! k) ∧
  (∀ k r, tbl !! k = Some r →
     ∃ r', (select_and_clear tbl).2 !! k = Some r' ∧
           same_outside_metrics r r' ∧ need_sync r' = false ∧
           upload_traffic r' = 0 ∧ download_traffic r' = 0 ∧
           ip_list r' ⊆ shared ∧
           (need_sync r = true → ip_list r' = ∅)).
Proof.
  intros Hreach. pose proof (metrics_accounted_rtc _ Hreach) as Hinv.
  split; [done |]. split; [| split; [apply select_and_clear_lookup |]].
  - intros -> k r Hk Hpend. destruct (Hinv k r Hk) as [Hbytes [Hmark | Hips]];
      [done |].
    destruct Hpend as [Hip | Hb]; [| by apply Hbytes].
    destruct Hip. cbn [snd] in Hips. set_solver.
  - intros k r Hk. destruct (Hinv k r Hk) as [Hbytes Hips].
    exists (if need_sync r then clear_metrics r else r).
    split; [by rewrite select_and_clear_lookup, Hk |].
    destruct (need_sync r) eqn:Hd.
    + repeat split; done.
    + destruct Hips as [? | Hips]; [done |]. cbn [snd] in Hips.
      split; [done |]. split; [done |].
      destruct (decide (upload_traffic r = 0)) as [Hup | Hup];
        [| by specialize (Hbytes (or_introl Hup))].
      destruct (decide (download_traffic r = 0)) as [Hdown | Hdown];
        [| by specialize (Hbytes (or_intror Hdown))].
      done.
Qed.

End ReachableProofs.

Lemma table_one_conn_reachable :
  reachable (C := string) (table_one_conn, ∅).
Proof.
  unfold reachable, table_one_conn.
  eapply rtc_l; [apply (step_from_json (C := string)) |].
  eapply rtc_l; [apply (step_incr_tcp_conn_num (C := string)) |].
  apply rtc_refl.
Qed.

Lemma table_busy_reachable : reachable (C := string) (table_busy, ∅).
Proof.
  unfold reachable, table_busy.
  eapply rtc_l; [apply (step_from_json (C := string)) |].
  eapply rtc_l; [apply (step_record_traffic (C := string)) |].
  eapply rtc_l; [apply (step_record_ip (C := string)) |].
  apply rtc_refl.
Qed.

Lemma pending_metrics_marked_and_flush_resets_witness :
  reachable (C := string) (table_busy, ∅) ∧
  (∃ r, table_busy !! 1 = Some r ∧ metrics_pending r) ∧
  metrics_accounted (table_busy, ∅) ∧
  ((∅ : gset string) = ∅ → pending_rows_marked table_busy) ∧
  (∀ k, (select_and_clear table_busy).2 !! k =
        (λ r, if need_sync r then clear_metrics r else r)
          <$> table_busy !! k) ∧
  (∀ k r, table_busy !! k = Some r →
     ∃ r', (select_and_clear table_busy).2 !! k = Some r' ∧
           same_outside_metrics r r' ∧ need_sync r' = false ∧
           upload_traffic r' = 0 ∧ download_traffic r' = 0 ∧
           ip_list r' ⊆ (∅ : gset string) ∧
           (need_sync r = true → ip_list r' = ∅)).
Proof.
  split; [exact table_busy_reachable |]. split.
  - eexists. split; [vm_compute; reflexivity |].
    right. left. discriminate.
  - exact (pending_metrics_marked_and_flush_resets (C := string)
             table_busy ∅ table_busy_reachable).
Defined.

(** After the import of user A and one [incr_tcp_conn_num] the row of A
    is marked for sync while its [ip_list] is empty and its byte counters
    are zero. *)
Lemma need_sync_iff_pending_claim_fails :
  ¬ (∀ st : State,
       reachable (C := string) st → need_sync_iff_pending_claim st.1).
Proof.
  intros Hclaim.
  specialize (Hclaim (table_one_conn, ∅) table_one_conn_reachable 1
                (set_need_sync true (set_tcp_conn_num 1 row_A))).
  assert (Hrow : table_one_conn !! 1
                 = Some (set_need_sync true (set_tcp_conn_num 1 row_A)))
    by (vm_compute; reflexivity).
  destruct (proj1 (Hclaim Hrow) eq_refl) as [Hip | [Hup | Hdown]].
  - by apply Hip.
  - by apply Hup.
  - by apply Hdown.
Qed.

(** * Further properties of the model's methods *)

(** ** Accounting calls *)

Lemma update_by_id_absent uid f (tbl : Table) :
  tbl !! uid = None → update_by_id uid f tbl = tbl.
Proof.
  intros Hnone. apply map_eq. intros k.
  destruct (decide (uid = k)) as [-> | Hne].
  - by rewrite update_by_id_eq, Hnone.
  - by rewrite update_by_id_ne.
Qed.

Lemma update_by_id_compose uid f g (tbl : Table) :
  update_by_id uid g (update_by_id uid f tbl) = update_by_id uid (g ∘ f) tbl.
Proof.
  apply map_eq. intros k. destruct (decide (uid = k)) as [-> | Hne].
  - rewrite !update_by_id_eq. by destruct (tbl !! k).
  - by rewrite !update_by_id_ne.
Qed.

Lemma update_by_id_ext uid f g (tbl : Table) :
  (∀ r, tbl !! uid = Some r → f r = g r) →
  update_by_id uid f tbl = update_by_id uid g tbl.
Proof.
  intros Hfg. apply map_eq. intros k.
  destruct (decide (uid = k)) as [-> | Hne].
  - rewrite !update_by_id_eq. destruct (tbl !! k) as [r|] eqn:Hr; [| done].
    simpl. by rewrite (Hfg r).
  - by rewrite !update_by_id_ne.
Qed.

(** X1: the accounting calls update by [user_id]; for an instance whose
    [user_id] has no row the three of them leave the table as it is
    ([record_ip] still extends the list of the instance). *)
Theorem accounting_unknown_user_is_noop self peername used_u used_d num tbl :
  tbl !! c_user_id self = None →
  (record_ip self peername tbl).2 = tbl ∧
  record_traffic self used_u used_d tbl = tbl ∧
  incr_tcp_conn_num self num tbl = tbl.
Proof.
  intros Hnone. split; [| split].
  - destruct peername; simpl; try done. by apply update_by_id_absent.
  - by apply update_by_id_absent.
  - by apply update_by_id_absent.
Qed.

Lemma accounting_unknown_user_is_noop_witness :
  table_A !! c_user_id user_B = None ∧
  (record_ip user_B (PeerAddr "10.0.0.1" 4000) table_A).2 = table_A ∧
  record_traffic user_B 5 7 table_A = table_A ∧
  incr_tcp_conn_num user_B 1 table_A = table_A.
Proof.
  split; [reflexivity |].
  apply (accounting_unknown_user_is_noop user_B (PeerAddr "10.0.0.1" 4000)
           5 7 1 table_A).
  reflexivity.
Defined.

(** X2: two [record_traffic] calls for a user add up: while the
    amounts, their sums and the counters they lead to stay inside the
    range of the INTEGER columns, the two calls leave the table that
    one call with the summed byte counts leaves. *)
Theorem record_traffic_adds_up self u1 d1 u2 d2 tbl :
  int64 u1 → int64 d1 → int64 u2 → int64 d2 →
  int64 (u1 + u2) → int64 (d1 + d2) →
  (∀ r, tbl !! c_user_id self = Some r →
        int64 (upload_traffic r + u1) ∧ int64 (upload_traffic r + u1 + u2) ∧
        int64 (download_traffic r + d1) ∧
        int64 (download_traffic r + d1 + d2)) →
  record_traffic self u2 d2 (record_traffic self u1 d1 tbl) =
  record_traffic self (u1 + u2) (d1 + d2) tbl.
Proof.
  intros _ _ _ _ _ _ _.
  unfold record_traffic. rewrite update_by_id_compose.
  apply update_by_id_ext. intros r _. destruct r; simpl.
  unfold set_need_sync, set_upload_traffic, set_download_traffic; simpl.
  f_equal; lia.
Qed.

Lemma record_traffic_adds_up_witness :
  record_traffic user_A 30 40 (record_traffic user_A 10 20 table_AB) =
  record_traffic user_A (10 + 30) (20 + 40) table_AB.
Proof.
  apply (record_traffic_adds_up user_A 10 20 30 40 table_AB);
    try (unfold int64; lia).
  intros r Hr. vm_compute in Hr. injection Hr as <-.
  unfold int64. simpl. lia.
Defined.

(** X3: opening and closing connections: while [num], [-num] and the
    count they lead to stay inside the range of the INTEGER column,
    [incr_tcp_conn_num] by [num] and then by [-num] leaves the user's
    row as it was in every column but [need_sync], which is now set;
    the other rows are untouched. *)
Theorem incr_tcp_conn_num_back_and_forth self num tbl r :
  tbl !! c_user_id self = Some r →
  int64 num → int64 (- num) → int64 (tcp_conn_num r + num) →
  incr_tcp_conn_num self (- num) (incr_tcp_conn_num self num tbl) =
  <[c_user_id self := set_need_sync true r]> tbl.
Proof.
  intros Hr _ _ _. unfold incr_tcp_conn_num. rewrite update_by_id_compose.
  apply map_eq. intros k. destruct (decide (c_user_id self = k)) as [<- | Hne].
  - rewrite update_by_id_eq, lookup_insert_eq, Hr. simpl. f_equal.
    destruct r; unfold set_need_sync, set_tcp_conn_num; simpl. f_equal. lia.
  - by rewrite update_by_id_ne, lookup_insert_ne.
Qed.

Lemma incr_tcp_conn_num_back_and_forth_witness :
  table_AB !! c_user_id user_A = Some row_A ∧
  incr_tcp_conn_num user_A (- 1) (incr_tcp_conn_num user_A 1 table_AB) =
  <[c_user_id user_A := set_need_sync true row_A]> table_AB.
Proof.
  split; [reflexivity |].
  apply (incr_tcp_conn_num_back_and_forth user_A 1 table_AB row_A);
    [reflexivity | | |]; unfold int64; simpl; lia.
Defined.

Lemma record_ip_addr_table self host peer_port tbl r :
  tbl !! c_user_id self = Some r →
  (record_ip self (PeerAddr host peer_port) tbl).2
    = <[c_user_id self :=
          set_need_sync true (set_ip_list ({[host]} ∪ c_ip_list self) r)]>
        tbl.
Proof.
  intros Hr. simpl.
  apply map_eq. intros k. destruct (decide (c_user_id self = k)) as [<- | Hne].
  - by rewrite update_by_id_eq, lookup_insert_eq, Hr.
  - by rewrite update_by_id_ne, lookup_insert_ne.
Qed.

(** X4: [record_ip] with an address stores the list of the instance, not
    the list of the row: afterwards the row's [ip_list] is the host
    together with what the instance held, whatever the row held; the
    row is marked, its other columns and the other rows are untouched,
    and the returned instance holds the same list. *)
Theorem record_ip_stores_instance_list self host peer_port tbl r :
  tbl !! c_user_id self = Some r →
  let after := record_ip self (PeerAddr host peer_port) tbl in
  c_ip_list after.1 = {[host]} ∪ c_ip_list self ∧
  c_user_id after.1 = c_user_id self ∧
  after.2 = <[c_user_id self :=
                set_need_sync true (set_ip_list ({[host]} ∪ c_ip_list self) r)]>
              tbl.
Proof.
  intros Hr after. split; [done |]. split; [done |].
  by apply record_ip_addr_table.
Qed.

Lemma record_ip_stores_instance_list_witness :
  table_AB !! c_user_id user_A = Some row_A ∧
  let after := record_ip user_A (PeerAddr "10.0.0.1" 4000) table_AB in
  c_ip_list after.1 = {["10.0.0.1"]} ∪ c_ip_list user_A ∧
  c_user_id after.1 = c_user_id user_A ∧
  after.2 = <[c_user_id user_A :=
                set_need_sync true
                  (set_ip_list ({["10.0.0.1"]} ∪ c_ip_list user_A) row_A)]>
              table_AB.
Proof.
  split; [reflexivity |].
  apply (record_ip_stores_instance_list user_A "10.0.0.1" 4000 table_AB row_A).
  reflexivity.
Defined.

(** X5: an address that was flushed comes back: when an instance records
    address [a], the metrics are flushed, and the same instance records
    address [b], the row's [ip_list] holds [a] again next to [b]. *)
Theorem flushed_address_returns_with_instance self a pa b pb tbl r :
  tbl !! c_user_id self = Some r →
  let first := record_ip self (PeerAddr a pa) tbl in
  let flushed := (select_and_clear first.2).2 in
  let second := record_ip first.1 (PeerAddr b pb) flushed in
  (∃ r1, flushed !! c_user_id self = Some r1 ∧ ip_list r1 = ∅) ∧
  ∃ r2, second.2 !! c_user_id self = Some r2 ∧
        a ∈ ip_list r2 ∧ b ∈ ip_list r2 ∧ need_sync r2 = true.
Proof.
  intros Hr first flushed second.
  assert (Hlist : c_ip_list first.1 = {[a]} ∪ c_ip_list self) by done.
  assert (Hid : c_user_id first.1 = c_user_id self) by done.
  pose proof (record_ip_addr_table self a pa tbl r Hr) as Htbl.
  fold first in Htbl.
  assert (Hflushed : flushed !! c_user_id self =
            Some (clear_metrics
                    (set_need_sync true
                       (set_ip_list ({[a]} ∪ c_ip_list self) r)))).
  { unfold flushed. rewrite select_and_clear_lookup, Htbl.
    by rewrite lookup_insert_eq. }
  split; [by eexists |].
  rewrite <- Hid in Hflushed.
  pose proof (record_ip_addr_table first.1 b pb flushed _ Hflushed) as Htbl2.
  fold second in Htbl2.
  eexists. split; [rewrite Htbl2, Hid; apply lookup_insert_eq |].
  unfold set_need_sync, set_ip_list at 1. cbn [ip_list need_sync].
  rewrite Hlist. split; [set_solver | split; [set_solver | done]].
Qed.

Lemma flushed_address_returns_with_instance_witness :
  table_AB !! c_user_id user_A = Some row_A ∧
  let first := record_ip user_A (PeerAddr "10.0.0.1" 4000) table_AB in
  let flushed := (select_and_clear first.2).2 in
  let second := record_ip first.1 (PeerAddr "10.0.0.2" 4001) flushed in
  (∃ r1, flushed !! c_user_id user_A = Some r1 ∧ ip_list r1 = ∅) ∧
  ∃ r2, second.2 !! c_user_id user_A = Some r2 ∧
        "10.0.0.1" ∈ ip_list r2 ∧ "10.0.0.2" ∈ ip_list r2 ∧
        need_sync r2 = true.
Proof.
  split; [reflexivity |].
  apply (flushed_address_returns_with_instance user_A "10.0.0.1" 4000
           "10.0.0.2" 4001 table_AB row_A).
  reflexivity.
Defined.

(** X6: recording the same address again with the returned instance
    changes neither the instance nor the table. *)
Theorem record_ip_same_address_again self host peer_port peer_port' tbl :
  let first := record_ip self (PeerAddr host peer_port) tbl in
  record_ip first.1 (PeerAddr host peer_port') first.2 = first.
Proof.
  assert (Hidem : ∀ X : gset string, {[host]} ∪ ({[host]} ∪ X) = {[host]} ∪ X).
  { intros X. by rewrite (assoc_L (∪)), (idemp_L (∪)). }
  simpl. f_equal.
  - f_equal. apply Hidem.
  - rewrite update_by_id_compose. apply update_by_id_ext.
    intros r _. destruct r; simpl.
    unfold set_need_sync, set_ip_list; simpl. f_equal. apply Hidem.
Qed.

(** X7: [record_traffic] and [incr_tcp_conn_num] touch different columns:
    the two calls, for the same user or for two users, give the same
    table in either order. *)
Theorem record_traffic_incr_tcp_conn_num_commute self self' used_u used_d
    num tbl :
  record_traffic self used_u used_d (incr_tcp_conn_num self' num tbl) =
  incr_tcp_conn_num self' num (record_traffic self used_u used_d tbl).
Proof.
  unfold record_traffic, incr_tcp_conn_num. apply map_eq. intros k.
  destruct (decide (c_user_id self = k)) as [Hs | Hs];
    destruct (decide (c_user_id self' = k)) as [Hs' | Hs'].
  - rewrite Hs, Hs', !update_by_id_eq.
    by destruct (tbl !! k) as [[]|].
  - rewrite Hs, update_by_id_eq, !update_by_id_ne by done.
    by rewrite update_by_id_eq.
  - rewrite Hs', update_by_id_ne, !update_by_id_eq by done.
    by rewrite update_by_id_ne.
  - by rewrite !update_by_id_ne.
Qed.

(** ** What a flush sends *)

Lemma flush_data_elem tbl w :
  w ∈ flush_data tbl ↔
  ∃ k r, tbl !! k = Some r ∧ need_sync r = true ∧
         w = mkWire k (elements (ip_list r)) (tcp_conn_num r)
               (upload_traffic r) (download_traffic r).
Proof.
  unfold flush_data. rewrite list_elem_of_fmap. split.
  - intros (m & -> & Hm).
    apply select_and_clear_users in Hm as (k & r & Hk & Hd & ->).
    by exists k, r.
  - intros (k & r & Hk & Hd & ->). exists (metrics_of (k, r)).
    split; [done |]. apply select_and_clear_users. by exists k, r.
Qed.

(** X8: the list a flush posts has one record for every row marked for
    sync and no other: the record carries the row's key, the addresses
    of its [ip_list], its [tcp_conn_num] and its two byte counters.  No
    [user_id] occurs twice in the list and no address twice in a
    record. *)
Theorem flush_data_exact tbl :
  (∀ w, w ∈ flush_data tbl ↔
        ∃ k r, tbl !! k = Some r ∧ need_sync r = true ∧
               w = mkWire k (elements (ip_list r)) (tcp_conn_num r)
                     (upload_traffic r) (download_traffic r)) ∧
  NoDup (w_user_id <$> flush_data tbl) ∧
  (∀ w, w ∈ flush_data tbl → NoDup (w_ip_list w)).
Proof.
  split; [apply flush_data_elem |]. split.
  - unfold flush_data, select_and_clear. cbn [fst].
    rewrite <- !list_fmap_compose.
    change (w_user_id ∘ wire_of ∘ metrics_of) with (@fst Z Row).
    eapply sublist_NoDup; [apply (NoDup_fst_map_to_list tbl) |].
    apply fmap_sublist, sublist_filter.
  - intros w Hw. apply flush_data_elem in Hw as (k & r & _ & _ & ->).
    cbn [w_ip_list]. apply NoDup_elements.
Qed.

(** X9: a flush posts even when there is nothing to send: when no row is
    marked for sync the table is left as it is and the request is made
    with the empty list, whose outcome is the outcome of the flush. *)
Theorem flush_without_marked_rows request_post url tbl :
  (∀ k r, tbl !! k = Some r → need_sync r = false) →
  flush_metrics_to_remote request_post url tbl = (tbl, request_post url []).
Proof.
  intros Hclean. unfold flush_metrics_to_remote.
  destruct (select_and_clear tbl) as [users tbl'] eqn:Hsel.
  assert (Husers : users = []).
  { destruct users as [|m users]; [done |]. exfalso.
    assert (Hm : m ∈ (select_and_clear tbl).1) by (rewrite Hsel; left).
    apply select_and_clear_users in Hm as (k & r & Hk & Hd & _).
    rewrite (Hclean k r Hk) in Hd. discriminate. }
  assert (Htbl : tbl' = tbl).
  { change tbl' with (users, tbl').2. rewrite <- Hsel.
    apply map_eq. intros k. rewrite select_and_clear_lookup.
    destruct (tbl !! k) as [r|] eqn:Hk; [| done].
    simpl. by rewrite (Hclean k r Hk). }
  by rewrite Husers, Htbl.
Qed.

Lemma flush_without_marked_rows_witness :
  (∀ k r, table_AB !! k = Some r → need_sync r = false) ∧
  flush_metrics_to_remote post_refused "sync" table_AB
    = (table_AB, post_refused "sync" []).
Proof.
  assert (Hclean : ∀ k r, table_AB !! k = Some r → need_sync r = false).
  { intros k r Hk. unfold table_AB, table_A in Hk.
    destruct (decide (k = 2)) as [-> | H2].
    - rewrite lookup_insert_eq in Hk. by injection Hk as <-.
    - rewrite lookup_insert_ne in Hk by done.
      destruct (decide (k = 1)) as [-> | H1].
      + rewrite lookup_singleton_eq in Hk. by injection Hk as <-.
      + by rewrite lookup_singleton_ne in Hk. }
  split; [exact Hclean |].
  exact (flush_without_marked_rows post_refused "sync" table_AB Hclean).
Defined.

Lemma drained_upload_cons k m users :
  drained_upload k (m :: users) =
    if bool_decide (m_user_id m = k)
    then m_upload_traffic m + drained_upload k users
    else drained_upload k users.
Proof. reflexivity. Qed.

Lemma drained_download_cons k m users :
  drained_download k (m :: users) =
    if bool_decide (m_user_id m = k)
    then m_download_traffic m + drained_download k users
    else drained_download k users.
Proof. reflexivity. Qed.

Lemma drained_absent l k :
  k ∉ l.*1 →
  drained_upload k
    (metrics_of <$> filter (λ kr : Z * Row, need_sync kr.2 = true) l) = 0 ∧
  drained_download k
    (metrics_of <$> filter (λ kr : Z * Row, need_sync kr.2 = true) l) = 0.
Proof.
  induction l as [|[k' r'] l IH]; intros Hnin; [done |].
  rewrite fmap_cons in Hnin. apply not_elem_of_cons in Hnin as [Hne Hnin].
  destruct (IH Hnin) as [IHu IHd]. rewrite filter_cons.
  destruct (decide (need_sync (k', r').2 = true)); [| done].
  rewrite fmap_cons, drained_upload_cons, drained_download_cons.
  cbn [metrics_of m_user_id fst].
  by rewrite (bool_decide_eq_false_2 (k' = k)) by (intros Heq; by apply Hne).
Qed.

Lemma drained_present l k r :
  NoDup l.*1 → (k, r) ∈ l →
  drained_upload k
    (metrics_of <$> filter (λ kr : Z * Row, need_sync kr.2 = true) l)
    = (if need_sync r then upload_traffic r else 0) ∧
  drained_download k
    (metrics_of <$> filter (λ kr : Z * Row, need_sync kr.2 = true) l)
    = (if need_sync r then download_traffic r else 0).
Proof.
  induction l as [|[k' r'] l IH]; intros Hnodup Hin;
    [by apply elem_of_nil in Hin |].
  rewrite fmap_cons in Hnodup. apply NoDup_cons in Hnodup as [Hnin Hnodup].
  apply elem_of_cons in Hin as [[= <- <-] | Hin].
  - destruct (drained_absent l k Hnin) as [Hu Hd]. rewrite filter_cons.
    destruct (decide (need_sync (k, r).2 = true)) as [Hs | Hs];
      cbn [snd] in Hs.
    + rewrite fmap_cons, drained_upload_cons, drained_download_cons.
      cbn [metrics_of m_user_id m_upload_traffic m_download_traffic fst snd].
      rewrite bool_decide_eq_true_2 by done. rewrite Hs, Hu, Hd. split; lia.
    + by destruct (need_sync r).
  - destruct (IH Hnodup Hin) as [IHu IHd]. rewrite filter_cons.
    assert (Hne : k' ≠ k).
    { intros ->. apply Hnin. apply list_elem_of_fmap. by exists (k, r). }
    destruct (decide (need_sync (k', r').2 = true)); [| done].
    rewrite fmap_cons, drained_upload_cons, drained_download_cons.
    cbn [metrics_of m_user_id fst].
    by rewrite (bool_decide_eq_false_2 (k' = k)) by done.
Qed.

(** X10: a flush neither loses nor doubles bytes: for every row, what
    the selected snapshots report for its user plus what the row holds
    afterwards is what the row held before, for uploads and for
    downloads. *)
Theorem flush_conserves_traffic tbl k r :
  tbl !! k = Some r →
  let drained := select_and_clear tbl in
  ∃ r', drained.2 !! k = Some r' ∧
        drained_upload k drained.1 + upload_traffic r' = upload_traffic r ∧
        drained_download k drained.1 + download_traffic r'
          = download_traffic r.
Proof.
  intros Hk drained.
  assert (Hin : (k, r) ∈ select_all tbl) by by apply select_all_lookup.
  destruct (drained_present (select_all tbl) k r
              (NoDup_fst_map_to_list tbl) Hin) as [Hu Hd].
  exists (if need_sync r then clear_metrics r else r). split.
  - unfold drained. by rewrite select_and_clear_lookup, Hk.
  - unfold drained, select_and_clear. cbn [fst]. rewrite Hu, Hd.
    destruct (need_sync r); simpl; lia.
Qed.

Lemma flush_conserves_traffic_witness :
  let tbl := record_traffic user_A 10 20 table_AB in
  let drained := select_and_clear tbl in
  ∃ r', drained.2 !! 1 = Some r' ∧
        drained_upload 1 drained.1 + upload_traffic r' = 10 ∧
        drained_download 1 drained.1 + download_traffic r' = 20.
Proof.
  apply (flush_conserves_traffic (record_traffic user_A 10 20 table_AB) 1
           (set_need_sync true
              (set_upload_traffic 10 (set_download_traffic 20 row_A)))).
  vm_compute. reflexivity.
Defined.

(** ** What an identification does *)

Section IdentificationEffects.
Context {C : Type} `{!BaseCipher C}.
Variables (ts_protocol : Transport) (first_data : list Byte.byte).

Lemma find_loop_tried users :
  let out := find_loop ts_protocol first_data users in
  out.1 `prefix_of` users ∧
  (users ≠ [] → out.1 ≠ []) ∧
  ∀ pre user, out.1 = pre ++ [user] →
    Forall (λ u, ∃ e, try_user ts_protocol first_data u = Raise e ∧
                      is_mac_failure e) pre.
Proof.
  induction users as [|u users (IHp & IHn & IHm)]; simpl.
  - split; [done |]. split; [done |]. intros pre user Heq.
    by destruct pre.
  - destruct (try_user ts_protocol first_data u) as [c|e] eqn:Hu.
    + simpl. split; [by exists users |]. split; [done |].
      intros [|p pre] user Heq; [constructor |].
      injection Heq as _ Heq. by destruct pre.
    + destruct (except_ValueError e) as [e'|] eqn:Hex.
      * simpl. split; [by exists users |]. split; [done |].
        intros [|p pre] user Heq; [constructor |].
        injection Heq as _ Heq. by destruct pre.
      * destruct (find_loop ts_protocol first_data users) as [tried r].
        simpl in *. split; [by apply prefix_cons |]. split; [done |].
        intros [|p pre] user Heq.
        -- constructor.
        -- injection Heq as <- Heq. constructor; [| by eapply IHm].
           exists e. split; [done |]. by apply except_ValueError_None.
Qed.

Lemma find_loop_match_try users tried user cipher :
  find_loop ts_protocol first_data users = (tried, Ok (Some (user, cipher))) →
  try_user ts_protocol first_data user = Ok cipher.
Proof.
  revert tried. induction users as [|u users IH]; intros tried; simpl.
  - discriminate.
  - destruct (try_user ts_protocol first_data u) as [c|e] eqn:Hu.
    + by intros [= _ <- <-].
    + destruct (except_ValueError e); [discriminate |].
      destruct (find_loop ts_protocol first_data users) as [tr r].
      intros [= _ ->]. by eapply IH.
Qed.

Lemma try_user_ok user cipher :
  try_user ts_protocol first_data user = Ok cipher →
  ∃ cipher0 plain,
    cipher_cls (c_password user) = Ok cipher0 ∧
    decode_with ts_protocol cipher0 first_data = Ok (plain, cipher).
Proof.
  unfold try_user, decode_with.
  destruct (cipher_cls (c_password user)) as [c0|e]; [| discriminate].
  cbn [rbind].
  destruct (if bool_decide (ts_protocol = TRANSPORT_TCP)
            then decrypt c0 first_data else unpack c0 first_data)
    as [[plain c]|e] eqn:Hdec; [| discriminate].
  cbn [rbind snd]. intros [= <-]. by exists c0, plain.
Qed.

(** X11: the loop goes through the candidates of the port in their
    order and stops at the first that does not fail the MAC check: the
    users tried are a prefix of [list_by_port], not empty when the port
    has users, and every user tried before the last one failed its
    trial by the MAC failure. *)
Theorem tried_users_are_a_prefix save prt tbl :
  let out := find_access_user_and_cipher_by_data save prt ts_protocol
               first_data tbl in
  out.1.1 `prefix_of` list_by_port prt tbl ∧
  (list_by_port prt tbl ≠ [] → out.1.1 ≠ []) ∧
  ∀ pre user, out.1.1 = pre ++ [user] →
    Forall (λ u, ∃ e, try_user ts_protocol first_data u = Raise e ∧
                      is_mac_failure e) pre.
Proof.
  pose proof (find_loop_tried (list_by_port prt tbl)) as Hloop.
  unfold find_access_user_and_cipher_by_data.
  destruct (find_loop ts_protocol first_data (list_by_port prt tbl))
    as [tried r].
  assert (Hout : ∀ out : list Candidate * Table * Result (Candidate * C),
            out.1.1 = tried →
            out.1.1 `prefix_of` list_by_port prt tbl ∧
            (list_by_port prt tbl ≠ [] → out.1.1 ≠ []) ∧
            ∀ pre user, out.1.1 = pre ++ [user] →
              Forall (λ u, ∃ e, try_user ts_protocol first_data u = Raise e ∧
                                is_mac_failure e) pre).
  { intros out ->. exact Hloop. }
  destruct r as [[[user cipher]|]|e]; try by apply Hout.
  case_bool_decide; [by apply Hout |].
  destruct (save (incr_access_order user) tbl); by apply Hout.
Qed.

(** X12: a failed call writes nothing: whenever the call raises (an
    error of a trial, no match, a disabled match, or a failing [save])
    the table is the one it was given. *)
Theorem failed_identification_leaves_table save prt tbl e :
  (find_access_user_and_cipher_by_data save prt ts_protocol first_data
     tbl).2 = Raise e →
  (find_access_user_and_cipher_by_data save prt ts_protocol first_data
     tbl).1.2 = tbl.
Proof.
  unfold find_access_user_and_cipher_by_data.
  destruct (find_loop ts_protocol first_data (list_by_port prt tbl))
    as [tried [[[user cipher]|]|e']]; try done.
  case_bool_decide; [done |].
  by destruct (save (incr_access_order user) tbl).
Qed.

(** X13: on a port without users no cipher is built: no user is tried,
    the table is untouched, and the call raises the [RuntimeError]. *)
Theorem identification_on_empty_port save prt tbl :
  (∀ k r, tbl !! k = Some r → port r ≠ prt) →
  find_access_user_and_cipher_by_data save prt ts_protocol first_data tbl
    = ([], tbl, Raise (RuntimeError prt ts_protocol)).
Proof.
  intros Hnone.
  assert (Hlist : list_by_port prt tbl = []).
  { destruct (list_by_port prt tbl) as [|c l] eqn:Hl; [done |]. exfalso.
    assert (Hc : c ∈ list_by_port prt tbl) by (rewrite Hl; left).
    apply list_by_port_elem in Hc as (k & r & Hk & Hp & _).
    by apply (Hnone k r Hk). }
  unfold find_access_user_and_cipher_by_data. by rewrite Hlist.
Qed.

(** X14: what a successful call means.  When the call returns a user
    and a cipher, the user is a row of the port that is enabled; the
    returned instance is that row's candidate with [access_order] one
    higher; the table differs from the one before in that column of
    that row only; and the cipher is the one built from the row's
    password, in the state the decoding of the first data left it. *)
Theorem successful_identification prt tbl user cipher :
  (find_access_user_and_cipher_by_data Candidate_save prt ts_protocol
     first_data tbl).2 = Ok (user, cipher) →
  ∃ k r cipher0 plain,
    tbl !! k = Some r ∧ port r = prt ∧ enable r = true ∧
    user = incr_access_order (candidate_of (k, r)) ∧
    (find_access_user_and_cipher_by_data Candidate_save prt ts_protocol
       first_data tbl).1.2
      = <[k := set_access_order (access_order r + 1) r]> tbl ∧
    cipher_cls (password r) = Ok cipher0 ∧
    decode_with ts_protocol cipher0 first_data = Ok (plain, cipher).
Proof.
  unfold find_access_user_and_cipher_by_data.
  destruct (find_loop ts_protocol first_data (list_by_port prt tbl))
    as [tried [[[u c]|]|e']] eqn:Hloop; try discriminate.
  case_bool_decide as Hen; [discriminate |].
  destruct (Candidate_save (incr_access_order u) tbl) as [tbl'|e'] eqn:Hsave;
    [| discriminate].
  cbn [fst snd]. intros [= <- <-].
  pose proof (find_loop_match_elem _ _ _ _ _ _ Hloop) as Hin.
  apply list_by_port_elem in Hin as (k & r & Hk & Hp & ->).
  apply find_loop_match_try in Hloop.
  apply try_user_ok in Hloop as (c0 & plain & Hc0 & Hdec).
  exists k, r, c0, plain. split; [done |]. split; [done |].
  cbn [candidate_of c_enable c_password snd] in Hen, Hc0.
  split; [by destruct (enable r) |]. split; [done |].
  split; [by apply Candidate_save_from_row |]. done.
Qed.

End IdentificationEffects.

Lemma identification_on_empty_port_witness :
  (∀ k r, table_AB !! k = Some r → port r ≠ 9000) ∧
  find_access_user_and_cipher_by_data (C := string) Candidate_save 9000
    TRANSPORT_UDP (packet "pA" "hello") table_AB
    = ([], table_AB, Raise (RuntimeError 9000 TRANSPORT_UDP)).
Proof.
  assert (Hnone : ∀ k r, table_AB !! k = Some r → port r ≠ 9000).
  { intros k r Hk. unfold table_AB, table_A in Hk.
    destruct (decide (k = 2)) as [-> | H2].
    - rewrite lookup_insert_eq in Hk. by injection Hk as <-.
    - rewrite lookup_insert_ne in Hk by done.
      destruct (decide (k = 1)) as [-> | H1].
      + rewrite lookup_singleton_eq in Hk. by injection Hk as <-.
      + by rewrite lookup_singleton_ne in Hk. }
  split; [exact Hnone |].
  exact (identification_on_empty_port (C := string) TRANSPORT_UDP
           (packet "pA" "hello") Candidate_save 9000 table_AB Hnone).
Defined.

Lemma failed_identification_leaves_table_witness :
  (find_access_user_and_cipher_by_data (C := string) save_refused 8388
     TRANSPORT_TCP (packet "pA" "hello") table_AB).2
    = Raise (OperationalError "database is locked") ∧
  (find_access_user_and_cipher_by_data (C := string) save_refused 8388
     TRANSPORT_TCP (packet "pA" "hello") table_AB).1.2 = table_AB.
Proof.
  assert (Hraise :
    (find_access_user_and_cipher_by_data (C := string) save_refused 8388
       TRANSPORT_TCP (packet "pA" "hello") table_AB).2
    = Raise (OperationalError "database is locked"))
    by (vm_compute; reflexivity).
  split; [exact Hraise |].
  exact (failed_identification_leaves_table (C := string) TRANSPORT_TCP
           (packet "pA" "hello") save_refused 8388 table_AB _ Hraise).
Defined.

Lemma successful_identification_witness :
  ∃ k r cipher0 plain,
    table_AB !! k = Some r ∧ port r = 8388 ∧ enable r = true ∧
    incr_access_order user_A = incr_access_order (candidate_of (k, r)) ∧
    (find_access_user_and_cipher_by_data (C := string) Candidate_save 8388
       TRANSPORT_TCP (packet "pA" "hello") table_AB).1.2
      = <[k := set_access_order (access_order r + 1) r]> table_AB ∧
    cipher_cls (password r) = Ok cipher0 ∧
    decode_with TRANSPORT_TCP cipher0 (packet "pA" "hello")
      = Ok (plain, "pA").
Proof.
  apply (successful_identification (C := string) TRANSPORT_TCP
           (packet "pA" "hello") 8388 table_AB (incr_access_order user_A)
           "pA").
  vm_compute. reflexivity.
Defined.

(** ** Invariants of the reachable tables *)

Lemma passwords_unique_insert tbl k r :
  passwords_unique tbl →
  password_taken k (password r) tbl = false →
  passwords_unique (<[k := r]> tbl).
Proof.
  intros Huniq Hfree k1 k2 r1 r2 H1 H2 Heq.
  rewrite password_taken_false in Hfree.
  destruct (decide (k1 = k)) as [-> | Hk1];
    destruct (decide (k2 = k)) as [-> | Hk2]; [done | | |].
  - rewrite lookup_insert_eq in H1. injection H1 as <-.
    rewrite lookup_insert_ne in H2 by done.
    destruct (Hfree k2 r2 H2 Hk2). done.
  - rewrite lookup_insert_eq in H2. injection H2 as <-.
    rewrite lookup_insert_ne in H1 by done.
    destruct (Hfree k1 r1 H1 Hk1). done.
  - rewrite lookup_insert_ne in H1, H2 by done. by eapply Huniq.
Qed.

Lemma passwords_unique_same_passwords tbl tbl' :
  (∀ k r', tbl' !! k = Some r' →
           ∃ r, tbl !! k = Some r ∧ password r = password r') →
  passwords_unique tbl → passwords_unique tbl'.
Proof.
  intros Hsame Huniq k1 k2 r1 r2 H1 H2 Heq.
  apply Hsame in H1 as (r1' & H1 & Hp1). apply Hsame in H2 as (r2' & H2 & Hp2).
  apply (Huniq k1 k2 r1' r2' H1 H2). congruence.
Qed.

Lemma passwords_unique_not_taken tbl k r :
  passwords_unique tbl → tbl !! k = Some r →
  password_taken k (password r) tbl = false.
Proof.
  intros Huniq Hk. apply password_taken_false. intros k' r' Hk' Hne Heq.
  apply Hne. by apply (Huniq k' k r' r Hk' Hk).
Qed.

Lemma update_by_id_lookup_inv uid f (tbl : Table) k r' :
  update_by_id uid f tbl !! k = Some r' →
  ∃ r, tbl !! k = Some r ∧ (r' = r ∨ (k = uid ∧ r' = f r)).
Proof.
  destruct (decide (uid = k)) as [-> | Hne].
  - rewrite update_by_id_eq. destruct (tbl !! k) as [r|]; [| done].
    intros [= <-]. exists r. auto.
  - rewrite update_by_id_ne by done. intros Hk. exists r'. auto.
Qed.

Lemma passwords_unique_import shared users tbl :
  passwords_unique tbl →
  passwords_unique (create_or_update_from_json shared users tbl).1.
Proof.
  revert tbl. induction users as [|d users IH]; intros tbl Huniq; [done |].
  simpl.
  destruct (_create_or_update_user_from_data shared d tbl)
    as [[u' tbl']|e] eqn:Hd; [| done].
  apply IH.
  apply create_or_update_ok in Hd as (uid & r' & _ & _ & -> & Hfree & _).
  by apply passwords_unique_insert.
Qed.

Lemma passwords_unique_record_ip self peername tbl :
  passwords_unique tbl → passwords_unique (record_ip self peername tbl).2.
Proof.
  intros Huniq. destruct peername; try done.
  eapply passwords_unique_same_passwords; [| exact Huniq].
  intros k r' Hk. cbn [record_ip snd] in Hk.
  apply update_by_id_lookup_inv in Hk as (r & Hr & [-> | [_ ->]]);
    by exists r.
Qed.

Section InvariantProofs.
Context {C : Type} `{!BaseCipher C}.

Lemma passwords_unique_step st st' :
  step st st' → passwords_unique st.1 → passwords_unique st'.1.
Proof.
  intros Hstep Huniq. destruct Hstep; cbn [fst] in *.
  - by apply passwords_unique_import.
  - unfold create_or_update_from_remote.
    destruct (request_get url); [by apply passwords_unique_import | done].
  - eapply passwords_unique_same_passwords; [| exact Huniq].
    intros k r' Hk.
    assert (Hk' : (select_and_clear tbl).2 !! k = Some r').
    { unfold flush_metrics_to_remote in Hk.
      by destruct (select_and_clear tbl). }
    apply select_and_clear_clean in Hk'
      as [_ (r & Hr & (_ & _ & Hpw & _) & _)].
    by exists r.
  - by apply passwords_unique_record_ip.
  - by apply passwords_unique_record_ip.
  - eapply passwords_unique_same_passwords; [| exact Huniq].
    intros k r' Hk.
    apply update_by_id_lookup_inv in Hk as (r & Hr & [-> | [_ ->]]);
      by exists r.
  - eapply passwords_unique_same_passwords; [| exact Huniq].
    intros k r' Hk.
    apply update_by_id_lookup_inv in Hk as (r & Hr & [-> | [_ ->]]);
      by exists r.
  - destruct (find_access_user_table Candidate_save prt ts_protocol
                first_data tbl) as [-> | (user & Hin & Hsave)]; [done |].
    apply list_by_port_elem in Hin as (k & r & Hr & _ & ->).
    rewrite (Candidate_save_from_row _ _ _ _ Hr Hsave).
    eapply passwords_unique_same_passwords; [| exact Huniq].
    intros k' r' Hk'. destruct (decide (k = k')) as [<- | Hne].
    + rewrite lookup_insert_eq in Hk'. injection Hk' as <-. by exists r.
    + rewrite lookup_insert_ne in Hk' by done. by exists r'.
Qed.

Lemma passwords_unique_rtc st :
  rtc step (∅, ∅) st → passwords_unique st.1.
Proof.
  revert st. apply (rtc_ind_r (λ st, passwords_unique st.1)).
  - intros k1 k2 r1 r2 H1. cbn [fst] in H1. by rewrite lookup_empty in H1.
  - intros st st' _ Hstep Huniq.
    by apply (passwords_unique_step st st').
Qed.

(** X15: in every reachable state no two rows hold the same password:
    the imports refuse a record that would give a second row a password
    in use, and no other method assigns a new password. *)
Theorem reachable_passwords_unique tbl shared :
  reachable (tbl, shared) → passwords_unique tbl.
Proof. apply passwords_unique_rtc. Qed.

Lemma rows_persist_refl tbl : rows_persist tbl tbl.
Proof. intros k r Hk. exists r. split; [done | lia]. Qed.

Lemma rows_persist_trans tbl1 tbl2 tbl3 :
  rows_persist tbl1 tbl2 → rows_persist tbl2 tbl3 → rows_persist tbl1 tbl3.
Proof.
  intros H12 H23 k r Hk. destruct (H12 k r Hk) as (r2 & Hk2 & Hle2).
  destruct (H23 k r2 Hk2) as (r3 & Hk3 & Hle3). exists r3. split; [done | lia].
Qed.

Lemma rows_persist_update uid f tbl :
  (∀ r, access_order (f r) = access_order r) →
  rows_persist tbl (update_by_id uid f tbl).
Proof.
  intros Hf k r Hk. destruct (decide (uid = k)) as [-> | Hne].
  - exists (f r). rewrite update_by_id_eq, Hk. split; [done |].
    rewrite Hf. lia.
  - exists r. rewrite update_by_id_ne by done. split; [done | lia].
Qed.

Lemma rows_persist_record_ip self peername tbl :
  rows_persist tbl (record_ip self peername tbl).2.
Proof.
  destruct peername; try apply rows_persist_refl.
  by apply rows_persist_update.
Qed.

Lemma rows_persist_import shared users tbl :
  rows_persist tbl (create_or_update_from_json shared users tbl).1.
Proof.
  revert tbl. induction users as [|d users IH]; intros tbl;
    [apply rows_persist_refl |].
  simpl.
  destruct (_create_or_update_user_from_data shared d tbl)
    as [[u' tbl']|e] eqn:Hd; [| apply rows_persist_refl].
  eapply rows_persist_trans; [| apply IH].
  apply create_or_update_ok in Hd as (uid & r' & _ & _ & -> & _ & _ & Hrow).
  intros k r Hk. destruct (decide (uid = k)) as [-> | Hne].
  - exists r'. rewrite lookup_insert_eq. split; [done |].
    destruct Hrow as [(r0 & Hr0 & ->) | (Hnone & _)]; [| congruence].
    rewrite Hk in Hr0. injection Hr0 as <-. simpl. lia.
  - exists r. rewrite lookup_insert_ne by done. split; [done | lia].
Qed.

Lemma rows_persist_step st st' : step st st' → rows_persist st.1 st'.1.
Proof.
  intros Hstep. destruct Hstep; cbn [fst].
  - apply rows_persist_import.
  - unfold create_or_update_from_remote.
    destruct (request_get url);
      [apply rows_persist_import | apply rows_persist_refl].
  - intros k r Hk.
    exists (if need_sync r then clear_metrics r else r). split.
    + unfold flush_metrics_to_remote.
      pose proof (select_and_clear_lookup tbl k) as Hl. rewrite Hk in Hl.
      by destruct (select_and_clear tbl).
    + destruct (need_sync r); simpl; lia.
  - apply rows_persist_record_ip.
  - apply rows_persist_record_ip.
  - by apply rows_persist_update.
  - by apply rows_persist_update.
  - destruct (find_access_user_table Candidate_save prt ts_protocol
                first_data tbl) as [-> | (user & Hin & Hsave)];
      [apply rows_persist_refl |].
    apply list_by_port_elem in Hin as (k & r & Hr & _ & ->).
    rewrite (Candidate_save_from_row _ _ _ _ Hr Hsave).
    intros k' r' Hk'. destruct (decide (k = k')) as [<- | Hne].
    + eexists. rewrite lookup_insert_eq. split; [done |].
      rewrite Hr in Hk'. injection Hk' as <-. simpl. lia.
    + exists r'. rewrite lookup_insert_ne by done. split; [done | lia].
Qed.

(** X16: no method of the model deletes a row or lowers an
    [access_order]: along any sequence of calls every row stays in the
    table, under its key, with an [access_order] at least what it
    was. *)
Theorem rows_persist_along_calls st st' :
  rtc step st st' → rows_persist st.1 st'.1.
Proof.
  induction 1 as [st | st st1 st2 Hstep _ IH].
  - apply rows_persist_refl.
  - eapply rows_persist_trans; [by apply rows_persist_step | exact IH].
Qed.

(** X17: in a reachable state the UNIQUE constraint never refuses the
    save of an identification: when the candidates before a user fail
    the MAC check, the user's cipher decodes the first data, the user is
    enabled, and the storage refuses the save for no reason of its own
    (it does what the update does on the table), the call returns that
    user, with [access_order] one higher, and its cipher; the user's row
    has the new [access_order] and nothing else has changed. *)
Theorem identification_succeeds_on_reachable
    save prt ts_protocol first_data tbl shared pre user post cipher :
  reachable (tbl, shared) →
  list_by_port prt tbl = pre ++ user :: post →
  Forall (λ u, ∃ e, try_user ts_protocol first_data u = Raise e ∧
                    is_mac_failure e) pre →
  try_user ts_protocol first_data user = Ok cipher →
  c_enable user = true →
  save (incr_access_order user) tbl
    = Candidate_save (incr_access_order user) tbl →
  ∃ r, tbl !! c_user_id user = Some r ∧
       find_access_user_and_cipher_by_data save prt ts_protocol
         first_data tbl
       = (pre ++ [user],
          <[c_user_id user := set_access_order (access_order r + 1) r]> tbl,
          Ok (incr_access_order user, cipher)).
Proof.
  intros Hreach Hlist Hpre Hok Hen Hstore.
  assert (Hin : user ∈ list_by_port prt tbl).
  { rewrite Hlist. apply elem_of_app. right. left. }
  apply list_by_port_elem in Hin as (k & r & Hr & _ & ->).
  exists r. split; [done |].
  unfold find_access_user_and_cipher_by_data.
  rewrite Hlist, (find_loop_first_match _ _ _ _ _ _ Hpre Hok).
  rewrite bool_decide_eq_false_2 by congruence.
  assert (Hsave : Candidate_save (incr_access_order (candidate_of (k, r))) tbl
                  = Ok (<[k := set_access_order (access_order r + 1) r]> tbl)).
  { unfold Candidate_save.
    cbn [incr_access_order candidate_of c_user_id c_method c_password
         c_enable c_ip_list c_access_order fst snd].
    rewrite Hr.
    rewrite (passwords_unique_not_taken tbl k r
               (passwords_unique_rtc _ Hreach) Hr).
    by destruct r. }
  by rewrite Hstore, Hsave.
Qed.

End InvariantProofs.

Lemma table_AB_reachable : reachable (C := string) (table_AB, ∅).
Proof.
  replace table_AB with (create_or_update_from_json ∅ [data_A; data_B] ∅).1
    by (vm_compute; reflexivity).
  apply rtc_once. apply (step_from_json (C := string)).
Qed.

Lemma reachable_passwords_unique_witness :
  reachable (C := string) (table_AB, ∅) ∧ passwords_unique table_AB.
Proof.
  split; [exact table_AB_reachable |].
  exact (reachable_passwords_unique (C := string) table_AB ∅
           table_AB_reachable).
Defined.

Lemma rows_persist_along_calls_witness :
  rows_persist table_AB
    (record_traffic user_A 10 20 (incr_tcp_conn_num user_A 1 table_AB)).
Proof.
  apply (rows_persist_along_calls (C := string) (table_AB, ∅)
           (record_traffic user_A 10 20
              (incr_tcp_conn_num user_A 1 table_AB), ∅)).
  eapply rtc_l; [apply (step_incr_tcp_conn_num (C := string) user_A 1) |].
  apply rtc_once. apply (step_record_traffic (C := string)).
Defined.

Lemma table_AC_reachable : reachable (C := string) (table_AC, ∅).
Proof.
  unfold table_AC. apply rtc_once. apply (step_from_json (C := string)).
Qed.

Lemma identification_succeeds_on_reachable_witness :
  ∃ r, table_AC !! c_user_id user_C = Some r ∧
       find_access_user_and_cipher_by_data (C := string) Candidate_save 8388
         TRANSPORT_TCP (packet "pC" "hello") table_AC
       = ([user_A] ++ [user_C],
          <[c_user_id user_C := set_access_order (access_order r + 1) r]>
            table_AC,
          Ok (incr_access_order user_C, "pC")).
Proof.
  apply (identification_succeeds_on_reachable (C := string) Candidate_save
           8388 TRANSPORT_TCP (packet "pC" "hello") table_AC ∅ [user_A]
           user_C [] "pC").
  - exact table_AC_reachable.
  - vm_compute. reflexivity.
  - constructor; [| constructor].
    exists (ValueError ["MAC check failed"]).
    split; [vm_compute; reflexivity | by exists []].
  - vm_compute. reflexivity.
  - reflexivity.
  - reflexivity.
Defined.

(** ** What an import writes *)

Lemma merged_row_holds data r : merged_row data r = r → row_holds data r.
Proof.
  intros Hm. unfold row_holds.
  repeat split; intros v Hv; rewrite <- Hm; unfold merged_row; simpl;
    by rewrite Hv.
Qed.

Lemma settled_row_holds data tbl :
  settled data tbl →
  ∃ uid r, d_user_id data = Some uid ∧ tbl !! uid = Some r ∧
           row_holds data r.
Proof.
  intros (uid & r & Hid & Hr & Hm & _). exists uid, r.
  split; [done |]. split; [done |]. by apply merged_row_holds.
Qed.

(** X18: what was imported can be read back: after an import that
    raised nothing, of a payload that names no [user_id] twice, every
    record of the payload has its row in the table, and the row agrees
    with the record on every key the record carries. *)
Theorem imported_records_read_back shared users tbl :
  NoDup (omap d_user_id users) →
  (create_or_update_from_json shared users tbl).2 = Ok tt →
  ∀ data, data ∈ users →
    ∃ uid r, d_user_id data = Some uid ∧
             (create_or_update_from_json shared users tbl).1 !! uid = Some r ∧
             row_holds data r.
Proof.
  intros Hnodup Hok data Hin. apply settled_row_holds.
  revert tbl Hnodup Hok Hin.
  induction users as [|d users IH]; intros tbl Hnodup Hok Hin;
    [by apply elem_of_nil in Hin |].
  simpl in Hok |- *.
  destruct (_create_or_update_user_from_data shared d tbl)
    as [[u' tbl']|e] eqn:Hd; [| discriminate].
  pose proof (create_or_update_ok _ _ _ _ _ Hd) as (uid & r' & Hid & _).
  simpl in Hnodup. rewrite Hid in Hnodup.
  apply NoDup_cons in Hnodup as [Hnin Hnodup].
  apply elem_of_cons in Hin as [-> | Hin].
  - eapply settled_preserved; [by eapply settled_after | done | done].
  - by apply IH.
Qed.

Lemma imported_records_read_back_witness :
  NoDup (omap d_user_id [data_A; data_B]) ∧
  (create_or_update_from_json ∅ [data_A; data_B] ∅).2 = Ok tt ∧
  ∃ uid r, d_user_id data_B = Some uid ∧
           (create_or_update_from_json ∅ [data_A; data_B] ∅).1 !! uid
             = Some r ∧
           row_holds data_B r.
Proof.
  assert (Hnodup : NoDup (omap d_user_id [data_A; data_B])).
  { simpl. apply NoDup_cons. split; [| apply NoDup_singleton].
    intros Hin. apply list_elem_of_singleton in Hin. discriminate. }
  assert (Hok : (create_or_update_from_json ∅ [data_A; data_B] ∅).2 = Ok tt)
    by (vm_compute; reflexivity).
  split; [exact Hnodup |]. split; [exact Hok |].
  apply (imported_records_read_back ∅ [data_A; data_B] ∅ Hnodup Hok data_B).
  right. left.
Defined.

(** X19: an import assigns definition columns only: every row that was
    in the table is still there afterwards, with its [access_order], its
    sync mark, its [ip_list], its [tcp_conn_num] and its byte counters
    as they were, whether the import ends normally or raises. *)
Theorem import_keeps_accounting_columns shared users tbl k r :
  tbl !! k = Some r →
  ∃ r', (create_or_update_from_json shared users tbl).1 !! k = Some r' ∧
        same_outside_definition r r'.
Proof.
  revert tbl r. induction users as [|d users IH]; intros tbl r Hk.
  - exists r. by split.
  - simpl.
    destruct (_create_or_update_user_from_data shared d tbl)
    as [[u' tbl']|e] eqn:Hd;
      [| exists r; by split].
    apply create_or_update_ok in Hd
      as (uid & r1 & _ & _ & -> & _ & _ & Hrow).
    destruct (decide (uid = k)) as [-> | Hne].
    + destruct Hrow as [(r0 & Hr0 & ->) | (Hnone & _)]; [| congruence].
      rewrite Hk in Hr0. injection Hr0 as <-.
      destruct (IH (<[k := merged_row d r]> tbl) (merged_row d r))
        as (r' & Hr' & Hsame); [apply lookup_insert_eq |].
      exists r'. split; [done |]. exact Hsame.
    + destruct (IH (<[uid := r1]> tbl) r) as (r' & Hr' & Hsame);
        [by rewrite lookup_insert_ne |].
      exists r'. by split.
Qed.

Lemma import_keeps_accounting_columns_witness :
  let tbl := record_traffic user_A 10 20 table_AB in
  ∃ r', (create_or_update_from_json ∅
           [mkUserData (Some 1) (Some 9000) None None (Some false) None]
           tbl).1 !! 1 = Some r' ∧
        same_outside_definition
          (set_need_sync true
             (set_upload_traffic 10 (set_download_traffic 20 row_A))) r'.
Proof.
  apply (import_keeps_accounting_columns ∅
           [mkUserData (Some 1) (Some 9000) None None (Some false) None]
           (record_traffic user_A 10 20 table_AB) 1).
  vm_compute. reflexivity.
Defined.

(** X20: a record for a [user_id] that has no row creates the row: with
    [port], [method] and a [password] that no row holds, the row gets
    these, [enable] and [speed_limit] from the record or else [True]
    and [0], [access_order] 0, no sync mark, zero counters, and as
    [ip_list] what the shared default set of the field holds at that
    moment (nothing, until [record_ip] has been called on a created
    instance); the other rows are untouched. *)
Theorem record_for_new_user_creates_row shared data tbl uid p m pw :
  d_user_id data = Some uid →
  tbl !! uid = None →
  d_port data = Some p → d_method data = Some m →
  d_password data = Some pw →
  (∀ k r, tbl !! k = Some r → password r ≠ pw) →
  create_or_update_from_json shared [data] tbl =
    (<[uid := mkRow p m pw (default true (d_enable data))
                (default 0 (d_speed_limit data)) 0 false shared 0 0 0]> tbl,
     Ok tt).
Proof.
  intros Hid Hnone Hp Hm Hpw Hfree. simpl.
  unfold _create_or_update_user_from_data, pop_user_id. rewrite Hid.
  cbn [rbind]. unfold get_or_create. rewrite Hnone.
  unfold Model_create. cbn [d_user_id d_port d_method d_password d_enable
    d_speed_limit default]. rewrite Hp, Hm, Hpw, Hnone.
  rewrite bool_decide_eq_false_2 by (by intros [? ?]).
  assert (Htaken : password_taken uid pw tbl = false).
  { apply password_taken_false. intros k r Hk _. by apply (Hfree k r). }
  rewrite Htaken. reflexivity.
Qed.

Lemma record_for_new_user_creates_row_witness :
  create_or_update_from_json {["6.6.6.6"]} [data_B] table_A =
    (<[2 := mkRow 8388 "aes-256-gcm" "pB" false 0 0 false {["6.6.6.6"]}
              0 0 0]> table_A,
     Ok tt).
Proof.
  apply (record_for_new_user_creates_row {["6.6.6.6"]} data_B table_A 2 8388
           "aes-256-gcm" "pB"); try reflexivity.
  intros k r Hk. unfold table_A in Hk.
  destruct (decide (k = 1)) as [-> | H1].
  - rewrite lookup_singleton_eq in Hk. by injection Hk as <-.
  - by rewrite lookup_singleton_ne in Hk.
Defined.

(** X21: a record for a [user_id] that has no row is refused when it
    lacks [port], [method] or [password], or when another row holds its
    password: the import raises an [IntegrityError] at that record and
    the table is the one the record met. *)
Theorem record_for_new_user_refused shared data rest tbl uid :
  d_user_id data = Some uid →
  tbl !! uid = None →
  d_port data = None ∨ d_method data = None ∨ d_password data = None ∨
  (∃ k r, tbl !! k = Some r ∧ d_password data = Some (password r)) →
  ∃ msg, create_or_update_from_json shared (data :: rest) tbl
         = (tbl, Raise (IntegrityError msg)).
Proof.
  intros Hid Hnone Hbad. simpl.
  unfold _create_or_update_user_from_data, pop_user_id. rewrite Hid.
  cbn [rbind]. unfold get_or_create. rewrite Hnone.
  unfold Model_create. cbn [d_user_id d_port d_method d_password d_enable
    d_speed_limit default].
  destruct (d_port data) as [p|]; [| by eexists].
  destruct (d_method data) as [m|]; [| by eexists].
  destruct (d_password data) as [pw|] eqn:Hpw; [| by eexists].
  destruct Hbad as [? | [? | [? | (k & r & Hk & Heq)]]]; try discriminate.
  rewrite Hnone. rewrite bool_decide_eq_false_2 by (by intros [? ?]).
  assert (Htaken : password_taken uid pw tbl = true).
  { apply bool_decide_eq_true. exists k, r. split; [done |].
    split; [congruence | congruence]. }
  rewrite Htaken. by eexists.
Qed.

Lemma record_for_new_user_refused_witness :
  ∃ msg, create_or_update_from_json ∅
           (mkUserData (Some 3) (Some 8388) (Some "aes-256-gcm") (Some "pA")
              None None :: [data_B]) table_A
         = (table_A, Raise (IntegrityError msg)).
Proof.
  apply (record_for_new_user_refused ∅
           (mkUserData (Some 3) (Some 8388) (Some "aes-256-gcm") (Some "pA")
              None None) [data_B] table_A 3);
    [reflexivity | reflexivity |].
  right. right. right. exists 1, row_A. split; reflexivity.
Defined.

(** X22: a record for a [user_id] that has a row changes, in that row,
    the keys it carries and nothing else, provided no other row holds
    the password the row ends up with; when another row holds it the
    record is refused with an [IntegrityError] and the table stays. *)
Theorem record_for_existing_user_updates_row shared data tbl uid r :
  d_user_id data = Some uid →
  tbl !! uid = Some r →
  create_or_update_from_json shared [data] tbl =
    if password_taken uid (default (password r) (d_password data)) tbl
    then (tbl, Raise (IntegrityError "UNIQUE constraint failed: user.password"))
    else (<[uid := merged_row data r]> tbl, Ok tt).
Proof.
  intros Hid Hr. simpl.
  unfold _create_or_update_user_from_data, pop_user_id. rewrite Hid.
  cbn [rbind]. unfold get_or_create. rewrite Hr. cbn [rbind].
  rewrite update_from_dict_merged. unfold Model_save.
  cbn [user_id fields]. rewrite Hr.
  change (password (merged_row _ r))
    with (default (password r) (d_password data)).
  by destruct (password_taken uid _ tbl).
Qed.

Lemma record_for_existing_user_updates_row_witness :
  create_or_update_from_json ∅
    [mkUserData (Some 1) (Some 9000) None None (Some false) None] table_AB
  = (<[1 := mkRow 9000 "aes-256-gcm" "pA" false 0 0 false ∅ 0 0 0]> table_AB,
     Ok tt).
Proof.
  rewrite (record_for_existing_user_updates_row ∅
             (mkUserData (Some 1) (Some 9000) None None (Some false) None)
             table_AB 1 row_A eq_refl eq_refl).
  vm_compute. reflexivity.
Defined.
